(** * Info-Collect-Compare: the connection/session subsystem

    Shallow embedding of [src/connection]: the output formatter
    ([ConnectionUtils.format_command_output]), the parameter validation
    ([ConnectionUtils.validate_connection_params]), the prompt regexes of
    [SSHConnection]/[TelnetConnection], the post-processing of both session
    readers, the [BufferManager] and the command loop of
    [HighPerformanceConnectionWorker].

    A Python [str] is a sequence of Unicode code points: it is modelled as
    [list Z].  A Python [bytes] value is a [list Z] of values 0..255. *)

From Stdlib Require Import String Ascii ZArith NArith QArith_base List Bool Lia.
Import ListNotations.
Open Scope Z_scope.

Definition str := list Z.

(** ASCII literal helper: ["abc"] as a list of code points. *)
Definition s (x : string) : str :=
  map (fun a => Z.of_nat (nat_of_ascii a)) (list_ascii_of_string x).

Fixpoint str_eqb (a b : str) : bool :=
  match a, b with
  | [], [] => true
  | x :: a', y :: b' => (x =? y) && str_eqb a' b'
  | _, _ => false
  end.

Definition CR : Z := 13.
Definition LF : Z := 10.
Definition NUL : Z := 0.

(** ** Python character classes *)

(** [str.isspace] (used by [str.strip]): the code points Python 3 treats as
    whitespace. *)
Definition is_space (c : Z) : bool :=
  ((9 <=? c) && (c <=? 13)) || ((28 <=? c) && (c <=? 32)) ||
  (c =? 133) || (c =? 160) || (c =? 5760) ||
  ((8192 <=? c) && (c <=? 8202)) || (c =? 8232) || (c =? 8233) ||
  (c =? 8239) || (c =? 8287) || (c =? 12288).

(** Line boundaries of [str.splitlines] other than the pair CR LF. *)
Definition is_line_break (c : Z) : bool :=
  ((10 <=? c) && (c <=? 13)) || ((28 <=? c) && (c <=? 30)) ||
  (c =? 133) || (c =? 8232) || (c =? 8233).

(** ** [str] methods *)

Fixpoint lstrip (x : str) : str :=
  match x with
  | [] => []
  | c :: x' => if is_space c then lstrip x' else x
  end.

(** [x.strip()] *)
Definition strip (x : str) : str := rev (lstrip (rev (lstrip x))).

(** [x.endswith(suf)] *)
Definition ends_with (x suf : str) : bool :=
  (length suf <=? length x)%nat && str_eqb (skipn (length x - length suf) x) suf.

(** [x.replace("\x00", "")] *)
Definition remove_nul (x : str) : str := filter (fun c => negb (c =? NUL)) x.

(** [x.replace("\r\n", "\n")]: left to right, non-overlapping. *)
Fixpoint replace_crlf (x : str) : str :=
  match x with
  | [] => []
  | c :: x' =>
      if c =? CR then
        match x' with
        | d :: x'' => if d =? LF then LF :: replace_crlf x'' else c :: replace_crlf x'
        | [] => [c]
        end
      else c :: replace_crlf x'
  end.

(** [x.replace("\r", "\n")] *)
Definition replace_cr (x : str) : str := map (fun c => if c =? CR then LF else c) x.

(** [x.splitlines()]: [cur] is the current line reversed; [skip_lf] is set
    right after a CR, so that a following LF completes the CR LF pair. *)
Fixpoint splitlines_go (cur : str) (skip_lf : bool) (x : str) : list str :=
  match x with
  | [] => match cur with [] => [] | _ :: _ => [rev cur] end
  | c :: x' =>
      if skip_lf && (c =? LF) then splitlines_go cur false x'
      else if c =? CR then rev cur :: splitlines_go [] true x'
      else if is_line_break c then rev cur :: splitlines_go [] false x'
      else splitlines_go (c :: cur) false x'
  end.

Definition splitlines (x : str) : list str := splitlines_go [] false x.

(** [sep.join(xs)] *)
Fixpoint join (sep : str) (xs : list str) : str :=
  match xs with
  | [] => []
  | [x] => x
  | x :: xs' => x ++ sep ++ join sep xs'
  end.

(** ** [ConnectionUtils.format_command_output] *)

(** [while lines and lines[0].strip() == "": lines.pop(0)] *)
Fixpoint drop_blank (lines : list str) : list str :=
  match lines with
  | [] => []
  | l :: ls => match strip l with [] => drop_blank ls | _ :: _ => lines end
  end.

Definition format_command_output (command : str) (output : option str)
    (success : bool) : str :=
  let cmd := strip command in
  let out := match output with Some o => o | None => [] end in
  let out := remove_nul out in
  let out := replace_cr (replace_crlf out) in
  let lines := drop_blank (splitlines out) in
  let lines :=
    match lines with
    | head :: rest =>
        let h := strip head in
        if str_eqb h cmd || ends_with h cmd then rest else lines
    | [] => lines
    end in
  let out := join [LF] lines in
  cmd ++ [LF] ++ out ++ [LF; LF].

Example format_ex1 :
  format_command_output (s " show version ") (Some (s "<R1>show version
V1

")) true = s "show version
V1


".
Proof. reflexivity. Qed.

(** ** Post-processing of the two session readers *)

(** ["\n[输出截断，超过48MB限制]"], appended by both readers on truncation. *)
Definition truncation_marker : str :=
  [10; 91; 36755; 20986; 25130; 26029; 65292; 36229; 36807; 52; 56; 77; 66;
   38480; 21046; 93].

(** [re.sub(r'\r+\n', '\n', x)]: [n] counts the carriage returns seen since
    the last other character; a run of them followed by LF is one match. *)
Fixpoint sub_crs_lf (n : nat) (x : str) : str :=
  match x with
  | [] => repeat CR n
  | c :: x' =>
      if c =? CR then sub_crs_lf (S n) x'
      else if c =? LF then LF :: sub_crs_lf 0 x'
      else repeat CR n ++ c :: sub_crs_lf 0 x'
  end.

(** [SSHConnection._read_until_prompt], from the decoded buffer [text] on:
    [text.replace('\x00', '')], [re.sub(r'\r+\n', '\n', text).replace('\r', '')]
    and the truncation marker. *)
Definition ssh_read_finish (text : str) (truncated : bool) : str :=
  let text := remove_nul text in
  let text := filter (fun c => negb (c =? CR)) (sub_crs_lf 0 text) in
  if truncated then text ++ truncation_marker else text.

(** [TelnetConnection._read_output], from the decoded buffer [text] on: the
    truncation marker, then the removal of blank lines. *)
Definition telnet_read_finish (text : str) (truncated : bool) : str :=
  let text := if truncated then text ++ truncation_marker else text in
  let non_empty := filter (fun ln => negb (str_eqb (strip ln) [])) (splitlines text) in
  match non_empty with
  | [] => text
  | _ :: _ => join [LF] non_empty
  end.

(** ** A matcher for the regexes of the source

    The regexes used by the code are sequences of single-character classes
    with a quantifier, and the end anchor [$].  A [piece] is one of them;
    [matches ps x] says that the pieces match a prefix of [x] (Python's
    backtracking reaches a match whenever one exists). *)
Inductive piece :=
| P_one (f : Z -> bool)    (* one character of the class *)
| P_opt (f : Z -> bool)    (* [?] *)
| P_star (f : Z -> bool)   (* [*] *)
| P_plus (f : Z -> bool)   (* [+] *)
| P_eol.                   (* [$]: end of input, or before a final newline *)

Fixpoint star (f : Z -> bool) (k : str -> bool) (x : str) : bool :=
  (match x with c :: x' => f c && star f k x' | [] => false end) || k x.

Definition eol_ok (x : str) : bool :=
  match x with [] => true | [c] => c =? LF | _ => false end.

Fixpoint matches (ps : list piece) (x : str) : bool :=
  match ps with
  | [] => true
  | P_one f :: ps' => match x with c :: x' => f c && matches ps' x' | [] => false end
  | P_opt f :: ps' =>
      (match x with c :: x' => f c && matches ps' x' | [] => false end)
      || matches ps' x
  | P_star f :: ps' => star f (matches ps') x
  | P_plus f :: ps' =>
      match x with c :: x' => f c && star f (matches ps') x' | [] => false end
  | P_eol :: ps' => eol_ok x && matches ps' x
  end.

(** [re.search]: a match starting at some position. *)
Fixpoint search (ps : list piece) (x : str) : bool :=
  matches ps x || match x with [] => false | _ :: x' => search ps x' end.

(** [re.match]: a match starting at position 0. *)
Definition re_match (ps : list piece) (x : str) : bool := matches ps x.

Definition in_list (l : list Z) (c : Z) : bool := existsb (Z.eqb c) l.

(** Bytes-pattern [\w]: [a-zA-Z0-9_]. *)
Definition bytes_word (c : Z) : bool :=
  ((97 <=? c) && (c <=? 122)) || ((65 <=? c) && (c <=? 90)) ||
  ((48 <=? c) && (c <=? 57)) || (c =? 95).

(** Bytes-pattern [\s]: [ \t\n\r\f\v]. *)
Definition bytes_space (c : Z) : bool := in_list [32; 9; 10; 13; 12; 11] c.

(** The class [[\w\-\.:/@]]. *)
Definition token_class (c : Z) : bool := bytes_word c || in_list [45; 46; 58; 47; 64] c.

(** The class [[#>$%]]. *)
Definition prompt_char (c : Z) : bool := in_list [35; 62; 36; 37] c.

(** [rb'[\r\n][\w\-\.:/@]+[#>$%]\s*$'], the fallback prompt pattern of
    [SSHConnection._detect_prompt] and [TelnetConnection._detect_prompt_pattern]. *)
Definition fallback_prompt : list piece :=
  [P_one (in_list [CR; LF]); P_plus token_class; P_one prompt_char;
   P_star bytes_space; P_eol].

Definition fallback_prompt_matches (buf : str) : bool := search fallback_prompt buf.

Example fallback_ex1 : fallback_prompt_matches (s "display x
<R1>
R1# ") = true.
Proof. reflexivity. Qed.

(** Str-pattern [\d]: Unicode category Nd (the ranges of Python 3.11). *)
Definition decimal_ranges : list (Z * Z) :=
  map (fun lo => (lo, lo + 9))
    [48; 1632; 1776; 1984; 2406; 2534; 2662; 2790; 2918; 3046; 3174; 3302;
     3430; 3558; 3664; 3792; 3872; 4160; 4240; 6112; 6160; 6470; 6608; 6784;
     6800; 6992; 7088; 7232; 7248; 42528; 43216; 43264; 43472; 43504; 43600;
     44016; 65296; 66720; 68912; 69734; 69872; 69942; 70096; 70384; 70736;
     70864; 71248; 71360; 71472; 71904; 72016; 72784; 73040; 73120; 92768;
     92864; 93008; 123200; 123632; 125264; 130032]
  ++ [(120782, 120831)].

Definition is_decimal (c : Z) : bool :=
  existsb (fun r => (fst r <=? c) && (c <=? snd r)) decimal_ranges.

(** [r'^\d{1,3}(\.\d{1,3}){3}$'], with [\d{1,3}] written [\d\d?\d?]. *)
Definition d13 : list piece := [P_one is_decimal; P_opt is_decimal; P_opt is_decimal].
Definition dot : list piece := [P_one (Z.eqb 46)].
Definition ipv4_pattern : list piece :=
  d13 ++ dot ++ d13 ++ dot ++ d13 ++ dot ++ d13 ++ [P_eol].

Example ipv4_ex1 : re_match ipv4_pattern (s "10.0.0.1") = true.
Proof. reflexivity. Qed.
Example ipv4_ex2 : re_match ipv4_pattern (s "10.0.0") = false.
Proof. reflexivity. Qed.
Example ipv4_ex3 : re_match ipv4_pattern (s "10.0.0.1234") = false.
Proof. reflexivity. Qed.

(** ** [ConnectionUtils.validate_connection_params] *)

Definition err_protocol : str :=
  [21327; 35758; 24517; 39035; 26159; 32; 39; 115; 115; 104; 39; 32; 25110;
   32; 39; 116; 101; 108; 110; 101; 116; 39].
Definition err_ip_empty : str := [73; 80; 22320; 22336; 19981; 33021; 20026; 31354].
Definition err_ip_format : str :=
  [73; 80; 22320; 22336; 26684; 24335; 19981; 27491; 30830].
Definition err_port : str :=
  [31471; 21475; 21495; 24517; 39035; 22312; 49; 45; 54; 53; 53; 51; 53; 20043; 38388].
Definition err_username : str := [29992; 25143; 21517; 19981; 33021; 20026; 31354].
Definition err_password : str := [23494; 30721; 19981; 33021; 20026; 31354].

Definition is_empty (x : str) : bool := match x with [] => true | _ => false end.

Record validation := { valid : bool; errors : list str }.

Definition validate_connection_params (protocol ip : str) (port : Z)
    (username password : str) : validation :=
  let errs := [] in
  let errs := if negb (str_eqb protocol (s "ssh") || str_eqb protocol (s "telnet"))
              then errs ++ [err_protocol] else errs in
  let errs := if is_empty ip then errs ++ [err_ip_empty]
              else if negb (re_match ipv4_pattern ip) then errs ++ [err_ip_format]
              else errs in
  let errs := if (port <? 1) || (port >? 65535) then errs ++ [err_port] else errs in
  let errs := if is_empty username then errs ++ [err_username] else errs in
  let errs := if is_empty password then errs ++ [err_password] else errs in
  {| valid := Nat.eqb (length errs) 0; errors := errs |}.

(** ** [BufferManager] *)

(** The output directory as the code sees it: a store from file paths to
    file contents. *)
Definition FS := str -> option str.

Definition fs_write (fs : FS) (p : str) (content : str) : FS :=
  fun q => if str_eqb q p then Some content else fs q.

(** [os.path.join(a, b)] (posixpath). *)
Definition path_join (a b : str) : str :=
  match b with
  | 47 :: _ => b
  | _ => if is_empty a || ends_with a (s "/") then a ++ b else a ++ s "/" ++ b
  end.

Module Buffer.

Record BufferManager := {
  output_dir : str;
  mode : str;
  ip : str;
  output_buffer : list str;
  buffer_size : N;
  total_bytes : N;
  last_filepath : str
}.

Definition max_buffer_size : N := 5 * 1024 * 1024.
Definition max_output_size : N := 50 * 1024 * 1024.

Definition init (output_dir mode ip : str) : BufferManager :=
  {| output_dir := output_dir; mode := mode; ip := ip; output_buffer := [];
     buffer_size := 0; total_bytes := 0; last_filepath := [] |}.

(** [f"{self.mode}-{self.ip}-{timestamp}.txt"] joined to the output directory;
    [timestamp] is [datetime.now().strftime("%Y%m%d-%H%M%S")] at the call. *)
Definition session_path (b : BufferManager) (timestamp : str) : str :=
  path_join (output_dir b) (mode b ++ s "-" ++ ip b ++ s "-" ++ timestamp ++ s ".txt").

(** What the file I/O of a flush does: it succeeds, or it raises (the
    exception is caught by [flush_buffer]).  [IoFail None]: it raises before
    the file is opened; [IoFail (Some w)]: the file was opened (created if
    missing, kept and appended to otherwise) and [w], a prefix of the
    buffered text, reached it before [write] or [close] raised.  [w] is
    left free: what is proved about a failed flush holds for every [w]. *)
Inductive io_outcome :=
| IoOk
| IoFail (written : option str).

Section Ops.

(** [len(data.encode('utf-8'))] *)
Variable encoded_len : str -> N.

(** [flush_buffer]: [timestamp] is the clock reading at the call and [io_ok]
    what its file I/O does. *)
Definition flush_buffer (b : BufferManager) (timestamp : str) (io_ok : io_outcome)
    (fs : FS) : BufferManager * FS * bool :=
  match output_buffer b with
  | [] => (b, fs, false)
  | _ :: _ =>
      let filepath := session_path b timestamp in
      let old := match fs filepath with Some c => c | None => [] end in
      match io_ok with
      | IoOk =>
          let fs' := fs_write fs filepath (old ++ concat (output_buffer b)) in
          ({| output_dir := output_dir b; mode := mode b; ip := ip b;
              output_buffer := []; buffer_size := 0; total_bytes := total_bytes b;
              last_filepath := filepath |}, fs', true)
      | IoFail None => (b, fs, false)
      | IoFail (Some w) => (b, fs_write fs filepath (old ++ w), false)
      end
  end.

(** [add_data]: the flush it may trigger reads the clock and does I/O. *)
Definition add_data (b : BufferManager) (data : str) (timestamp : str)
    (io_ok : io_outcome) (fs : FS) : BufferManager * FS * bool :=
  let data_size := encoded_len data in
  if (max_output_size <? total_bytes b + data_size)%N then (b, fs, false)
  else
    let '(b1, fs1, _) :=
      if (max_buffer_size <? buffer_size b + data_size)%N
      then flush_buffer b timestamp io_ok fs else (b, fs, false) in
    ({| output_dir := output_dir b1; mode := mode b1; ip := ip b1;
        output_buffer := output_buffer b1 ++ [data];
        buffer_size := buffer_size b1 + data_size;
        total_bytes := total_bytes b1 + data_size;
        last_filepath := last_filepath b1 |}, fs1, true).

(** [_get_last_filepath] *)
Definition get_last_filepath (b : BufferManager) (timestamp : str) : str :=
  if negb (is_empty (last_filepath b)) then last_filepath b
  else session_path b timestamp.

(** The returned dict.  Its [duration] and [speed_kb_s] are the floats
    [round(elapsed, 2)] and [round(total_bytes / elapsed / 1024, 2)] (0 when
    [elapsed <= 0]), where [elapsed] is [time.time() - self.start_time] at
    the call: the record keeps [elapsed] (a float is a rational) and
    [total_bytes], from which both are computed. *)
Record final_stats := {
  fin_elapsed : Q; fin_total_bytes : N; fin_output_dir : str; fin_filepath : str
}.

(** [finalize]: [ts_flush]/[io_ok] for its flush, [elapsed] the clock as
    above, [ts_path] the clock reading in [_get_last_filepath], [create_ok]
    whether [open(filepath, 'w')] succeeds (writing [""] and closing an empty
    file cannot fail afterwards). *)
Definition finalize (b : BufferManager) (ts_flush : str) (io_ok : io_outcome)
    (elapsed : Q) (ts_path : str) (create_ok : bool) (fs : FS)
    : BufferManager * FS * final_stats :=
  let '(b1, fs1, _) := flush_buffer b ts_flush io_ok fs in
  let filepath := get_last_filepath b1 ts_path in
  let '(fs2, filepath) :=
    match fs1 filepath with
    | Some _ => (fs1, filepath)
    | None => if create_ok then (fs_write fs1 filepath [], filepath) else (fs1, [])
    end in
  (b1, fs2, {| fin_elapsed := elapsed; fin_total_bytes := total_bytes b1;
               fin_output_dir := output_dir b1; fin_filepath := filepath |}).

(** A sequence of calls on one [BufferManager], with the environment each
    call sees. *)
Inductive op :=
| OpAdd (data : str) (timestamp : str) (io_ok : io_outcome)
| OpFlush (timestamp : str) (io_ok : io_outcome)
| OpFinalize (ts_flush : str) (io_ok : io_outcome) (elapsed : Q) (ts_path : str) (create_ok : bool).

Definition step (st : BufferManager * FS) (o : op) : BufferManager * FS :=
  let '(b, fs) := st in
  match o with
  | OpAdd d ts ok => let '(b', fs', _) := add_data b d ts ok fs in (b', fs')
  | OpFlush ts ok => let '(b', fs', _) := flush_buffer b ts ok fs in (b', fs')
  | OpFinalize t1 ok el t2 c => let '(b', fs', _) := finalize b t1 ok el t2 c fs in (b', fs')
  end.

(** The state after a sequence of calls. *)
Definition run_ops (st : BufferManager * FS) (ops : list op) : BufferManager * FS :=
  fold_left step ops st.

End Ops.

End Buffer.

(** ** [HighPerformanceConnectionWorker] *)

(** [len(x.encode('utf-8'))].  (Lone surrogates, for which [encode] raises,
    never occur: every text reaching [add_data] comes from a UTF-8 decode.) *)
Definition utf8_width (c : Z) : N :=
  if c <? 128 then 1 else if c <? 2048 then 2 else if c <? 65536 then 3 else 4.

Definition utf8_len (x : str) : N := fold_right (fun c n => (utf8_width c + n)%N) 0%N x.

Module Worker.
Import Buffer.

(** The outcome of [self.connection.execute_command(cmd, timeout, ...)]:
    it returns [(success, output)] or raises. *)
Inductive exec_result :=
| Returned (success : bool) (output : str)
| Raised (msg : str).

(** What the environment does around command [i]: the value of
    [self.is_running] when the loop checks it (cleared by [stop()]), the
    outcome of the command, and the clock/I/O seen by a flush that
    [add_data] may trigger. *)
Record cmd_env := {
  env_running : bool;
  env_exec : exec_result;
  env_ts : str;
  env_io_ok : io_outcome
}.

Record stats := {
  total_commands : nat;
  completed_commands : nat;
  failed_commands : nat
}.

Record worker := { w_stats : stats; w_bm : BufferManager; w_fs : FS }.

Definition incr_completed (st : stats) : stats :=
  {| total_commands := total_commands st; completed_commands := S (completed_commands st);
     failed_commands := failed_commands st |}.
Definition incr_failed (st : stats) : stats :=
  {| total_commands := total_commands st; completed_commands := completed_commands st;
     failed_commands := S (failed_commands st) |}.

(** [f"错误: {str(e)}"] *)
Definition error_prefix : str := [38169; 35823; 58; 32].

(** The body of the [for] loop of [_execute_commands] for one command that
    passed the [is_running] check (the progress signal is not modelled). *)
Definition exec_one (e : cmd_env) (cmd : str) (w : worker) : worker :=
  match env_exec e with
  | Returned success output =>
      let formatted_output := format_command_output cmd (Some output) success in
      let '(b', fs', accepted) :=
        add_data utf8_len (w_bm w) formatted_output (env_ts e) (env_io_ok e) (w_fs w) in
      {| w_stats := if accepted then incr_completed (w_stats w) else incr_failed (w_stats w);
         w_bm := b'; w_fs := fs' |}
  | Raised msg =>
      let st := incr_failed (w_stats w) in
      let error_output := format_command_output cmd (Some (error_prefix ++ msg)) false in
      let '(b', fs', _) :=
        add_data utf8_len (w_bm w) error_output (env_ts e) (env_io_ok e) (w_fs w) in
      {| w_stats := st; w_bm := b'; w_fs := fs' |}
  end.

(** [_execute_commands]: [for i, cmd in enumerate(self.commands)], leaving
    the loop when [is_running] is false. *)
Fixpoint execute_commands (env : nat -> cmd_env) (i : nat) (cmds : list str)
    (w : worker) : worker :=
  match cmds with
  | [] => w
  | cmd :: rest =>
      if negb (env_running (env i)) then w
      else execute_commands env (S i) rest (exec_one (env i) cmd w)
  end.

Record params := {
  p_protocol : str; p_ip : str; p_port : Z; p_username : str; p_password : str;
  p_commands : list str; p_mode : str; p_output_dir : str
}.

Record run_env := {
  makedirs_error : option str; (* [os.makedirs] in [BufferManager.__init__]: [Some (str(e))] if it raises *)
  connect_ok : bool;           (* [self.connection.connect()], which catches its own errors *)
  cmd_envs : nat -> cmd_env;
  run_elapsed : Q;             (* [self.stats['end_time'] - self.stats['start_time']] *)
  fin_ts_flush : str; fin_io_ok : io_outcome; fin_clock : Q; fin_ts_path : str;
  fin_create_ok : bool;        (* the environment of [BufferManager.finalize] *)
  fallback_ts : str            (* clock of [generate_filename] in [_finalize] *)
}.

(** The signals the worker emits, and the connection attempt itself
    ([connect()]).  [EvFinished] carries [finished_signal]'s path, flag and
    mode, and for its dict the statistics, [total_bytes], the run's
    duration before rounding, and the [elapsed] from which [finalize]
    computed [speed_kb_s]. *)
Inductive event :=
| EvError (category : str) (msg : str)
| EvProgress (percent : Z) (msg : str)
| EvConnectAttempt (protocol : str)
| EvFinished (filepath : str) (success : bool) (mode : str) (st : stats) (total_bytes : N)
    (duration : Q) (speed_elapsed : Q).

Definition init_stats (p : params) : stats :=
  {| total_commands := length (p_commands p); completed_commands := 0; failed_commands := 0 |}.

(** [f"{n}"] for an integer. *)
Fixpoint dec_go (fuel : nat) (n : Z) : str :=
  match fuel with
  | O => []
  | S fuel' => if n <? 10 then [48 + n] else dec_go fuel' (n / 10) ++ [48 + n mod 10]
  end.

Definition z_to_dec (n : Z) : str :=
  if n <? 0 then 45 :: dec_go (S (Z.to_nat (Z.log2 (- n)))) (- n)
  else dec_go (S (Z.to_nat (Z.log2 n))) n.

Definition msg_ssh_connecting : str := [83; 83; 72; 36830; 25509; 20013; 32].          (* "SSH连接中 " *)
Definition msg_ssh_connected : str := [83; 83; 72; 36830; 25509; 25104; 21151].        (* "SSH连接成功" *)
Definition msg_telnet_connecting : str :=
  [84; 101; 108; 110; 101; 116; 36830; 25509; 20013; 32].                               (* "Telnet连接中 " *)
Definition msg_telnet_connected : str :=
  [84; 101; 108; 110; 101; 116; 36830; 25509; 25104; 21151].                            (* "Telnet连接成功" *)
Definition msg_executing : str := [25191; 34892; 58; 32].                                (* "执行: " *)
Definition msg_runtime_error : str := [36816; 34892; 38169; 35823; 58; 32].              (* "运行错误: " *)
Definition msg_ssh_connect_failed : str :=
  [83; 83; 72; 38169; 35823; 58; 32; 83; 83; 72; 36830; 25509; 22833; 36133].
Definition msg_telnet_connect_failed : str :=
  [84; 101; 108; 110; 101; 116; 38169; 35823; 58; 32; 84; 101; 108; 110; 101;
   116; 36830; 25509; 22833; 36133].

(** The [progress_signal]s of the [_execute_commands] loop: one per command
    that passed the [is_running] check, emitted before it runs, with
    [10 + int(80 * i / len(self.commands))] ([n] is the length; the float
    quotient is non-negative and truncated, which is [Z.div]) and
    [f"执行: {cmd[:50]}..."].  It walks the loop exactly as
    [execute_commands] does. *)
Fixpoint loop_progress (env : nat -> cmd_env) (n : Z) (i : nat) (cmds : list str) : list event :=
  match cmds with
  | [] => []
  | cmd :: rest =>
      if negb (env_running (env i)) then []
      else EvProgress (10 + (80 * Z.of_nat i) / n) (msg_executing ++ firstn 50 cmd ++ s "...")
           :: loop_progress env n (S i) rest
  end.

(** [_run_ssh] / [_run_telnet] as [run] dispatches on the protocol: create
    the connection, report progress 5, connect, then (SSH: progress 10 and
    [_prepare_ssh_terminal]; Telnet: progress 15) run the command list.
    [_prepare_ssh_terminal] discards every result and emits nothing (its
    signals are commented out); it touches neither the statistics nor the
    buffer, so it is left out. *)
Definition run_session (p : params) (env : run_env) (w : worker) : list event * worker :=
  let proto := p_protocol p in
  let is_ssh := str_eqb proto (s "ssh") in
  if negb (is_ssh || str_eqb proto (s "telnet")) then ([], w)
  else
    let connecting := EvProgress 5 ((if is_ssh then msg_ssh_connecting else msg_telnet_connecting)
                                    ++ p_ip p ++ s ":" ++ z_to_dec (p_port p) ++ s "...") in
    if connect_ok env then
      ([connecting; EvConnectAttempt proto;
        if is_ssh then EvProgress 10 msg_ssh_connected else EvProgress 15 msg_telnet_connected]
       ++ loop_progress (cmd_envs env) (Z.of_nat (length (p_commands p))) 0 (p_commands p),
       execute_commands (cmd_envs env) 0 (p_commands p) w)
    else if is_ssh
    then ([connecting; EvConnectAttempt proto; EvError (s "ssh") msg_ssh_connect_failed], w)
    else ([connecting; EvConnectAttempt proto; EvError (s "telnet") msg_telnet_connect_failed], w).

(** [run], with [_finalize] in its [finally] block.  When [os.makedirs]
    raises, [self.buffer_manager] stays [None]: [run] reports a runtime
    error and [_finalize] emits nothing. *)
Definition run (p : params) (env : run_env) : list event :=
  let v := validate_connection_params (p_protocol p) (p_ip p) (p_port p)
             (p_username p) (p_password p) in
  if negb (valid v) then [EvError (s "validation") (join (s "; ") (errors v))]
  else
    match makedirs_error env with
    | Some e => [EvError (s "runtime") (msg_runtime_error ++ e)]
    | None =>
        let w0 := {| w_stats := init_stats p;
                     w_bm := Buffer.init (p_output_dir p) (p_mode p) (p_ip p);
                     w_fs := fun _ => None |} in
        let '(evs, w) := run_session p env w0 in
        let '(_, _, fin) := finalize (w_bm w) (fin_ts_flush env) (fin_io_ok env) (fin_clock env)
                              (fin_ts_path env) (fin_create_ok env) (w_fs w) in
        let filepath := if is_empty (fin_filepath fin)
                        then path_join (p_output_dir p)
                               (p_mode p ++ s "-" ++ p_ip p ++ s "-" ++ fallback_ts env ++ s ".txt")
                        else fin_filepath fin in
        evs ++ [EvFinished filepath true (p_mode p) (w_stats w) (fin_total_bytes fin)
                  (run_elapsed env) (fin_elapsed fin)]
    end.

End Worker.

(** ** Further helpers of [ConnectionUtils] *)

(** [p in x] for strings and bytes: [prefixb p x] is [x.startswith(p)]. *)
Fixpoint prefixb (p x : str) : bool :=
  match p, x with
  | [], _ => true
  | a :: p', b :: x' => (a =? b) && prefixb p' x'
  | _ :: _, [] => false
  end.

Fixpoint contains (x p : str) : bool :=
  prefixb p x || match x with [] => false | _ :: x' => contains x' p end.

(** [x.split(sep)] for a one-character separator: always at least one part. *)
Fixpoint split_go (sep : Z) (cur : str) (x : str) : list str :=
  match x with
  | [] => [rev cur]
  | c :: x' => if c =? sep then rev cur :: split_go sep [] x' else split_go sep (c :: cur) x'
  end.

Definition split_char (sep : Z) (x : str) : list str := split_go sep [] x.

(** [x.startswith('#')] *)
Definition starts_with_hash (x : str) : bool :=
  match x with 35 :: _ => true | _ => false end.

(** The lines [for line in f] yields for a file opened in text mode: the
    universal-newline translation turns CR LF and a lone CR into LF, and
    every line but possibly the last keeps its LF. *)
Definition read_text (raw : str) : str := replace_cr (replace_crlf raw).

Fixpoint file_lines_go (cur : str) (x : str) : list str :=
  match x with
  | [] => match cur with [] => [] | _ :: _ => [rev cur] end
  | c :: x' => if c =? LF then rev (LF :: cur) :: file_lines_go [] x'
               else file_lines_go (c :: cur) x'
  end.

Definition file_lines (x : str) : list str := file_lines_go [] x.

(** [ConnectionUtils.parse_command_file]: [file] is the decoded content of
    the file, [None] when opening or decoding it raises (the exception is
    caught and [[]] returned). *)
Definition parse_command_file (file : option str) : list str :=
  match file with
  | None => []
  | Some raw =>
      filter (fun line => negb (is_empty line) && negb (starts_with_hash line))
        (map strip (file_lines (read_text raw)))
  end.

(** ASCII case mapping, as [bytes.lower] does it. *)
Definition ascii_lower (c : Z) : Z := if (65 <=? c) && (c <=? 90) then c + 32 else c.
Definition ascii_upper (c : Z) : Z := if (97 <=? c) && (c <=? 122) then c - 32 else c.

Definition bytes_lower (x : str) : str := map ascii_lower x.

Definition large_patterns : list str :=
  [s "display current-configuration"; s "show running-config"; s "show configuration";
   s "display diagnostic-information"; s "show tech-support"; s "display interface";
   s "show interface"; s "display ip interface"; s "show ip interface";
   s "display version"; s "show version"].

Section Lower.

(** [str.lower] (the full Unicode case mapping) *)
Variable lower : str -> str.

(** [ConnectionUtils.is_large_output_command] *)
Definition is_large_output_command (command : str) : bool :=
  let cmd_lower := lower command in
  existsb (fun pattern => contains cmd_lower pattern) large_patterns.

(** [ConnectionUtils.calculate_timeout] *)
Definition calculate_timeout (command : str) (base_timeout : Z) : Z :=
  if is_large_output_command command then base_timeout * 2 else base_timeout.

End Lower.

(** A literal: [re.escape(p)], or literal characters of a pattern. *)
Definition lit (p : str) : list piece := map (fun c => P_one (Z.eqb c)) p.

Section HasPrompt.

(** Str-pattern [\w] (Unicode word characters). *)
Variable is_word : Z -> bool.

Definition word_dash (c : Z) : bool := is_word c || (c =? 45).
Definition gt_hash (c : Z) : bool := in_list [62; 35] c.
Definition not_space (c : Z) : bool := negb (is_space c).

(** The [prompt_patterns] of [ConnectionUtils.has_command_prompt]. *)
Definition command_prompt_patterns : list (list piece) :=
  [ [P_one (in_list [CR; LF]); P_plus word_dash; P_one gt_hash; P_star is_space; P_eol];
    [P_one (in_list [CR; LF]); P_plus word_dash; P_one (Z.eqb 40); P_plus word_dash;
     P_one (Z.eqb 41); P_one gt_hash; P_star is_space; P_eol];
    [P_one (in_list [CR; LF]); P_one (Z.eqb 91); P_plus word_dash; P_one (Z.eqb 93);
     P_one gt_hash; P_star is_space; P_eol];
    [P_one (in_list [CR; LF]); P_plus not_space; P_one gt_hash; P_star is_space; P_eol];
    P_one (in_list [CR; LF]) :: lit (s "[y/n]?") ++ [P_star is_space; P_eol];
    P_one (in_list [CR; LF]) :: lit (s "--More--") ++ [P_star is_space; P_eol];
    P_one (in_list [CR; LF]) :: lit (s "Press any key to continue") ++ [P_star is_space; P_eol] ].

(** [ConnectionUtils.has_command_prompt] *)
Definition has_command_prompt (output : str) : bool :=
  let lines := split_char LF output in
  let last_few_lines := if (5 <? length lines)%nat then skipn (length lines - 5) lines else lines in
  existsb (fun line => let line := strip line in
             existsb (fun pattern => search pattern line) command_prompt_patterns)
    last_few_lines.

End HasPrompt.

(** ** Prompt detection of both connections (bytes) *)

(** [bytes.splitlines()]: line boundaries LF, CR and CR LF. *)
Fixpoint bytes_splitlines_go (cur : str) (skip_lf : bool) (x : str) : list str :=
  match x with
  | [] => match cur with [] => [] | _ :: _ => [rev cur] end
  | c :: x' =>
      if skip_lf && (c =? LF) then bytes_splitlines_go cur false x'
      else if c =? CR then rev cur :: bytes_splitlines_go [] true x'
      else if c =? LF then rev cur :: bytes_splitlines_go [] false x'
      else bytes_splitlines_go (c :: cur) false x'
  end.

Definition bytes_splitlines (x : str) : list str := bytes_splitlines_go [] false x.

Fixpoint bytes_lstrip (x : str) : str :=
  match x with
  | [] => []
  | c :: x' => if bytes_space c then bytes_lstrip x' else x
  end.

(** [bytes.strip()] *)
Definition bytes_strip (x : str) : str := rev (bytes_lstrip (rev (bytes_lstrip x))).

(** [lines = [ln.strip() for ln in buf.splitlines() if ln.strip()]],
    [prompt_bytes = lines[-1] if lines else b''] *)
Definition prompt_sample (buf : str) : str :=
  let lines := filter (fun ln => negb (is_empty ln)) (map bytes_strip (bytes_splitlines buf)) in
  last lines [].

(** The bytes pattern [SSHConnection._detect_prompt] and
    [TelnetConnection._detect_prompt_pattern] compile from the collected
    buffer: [re.escape(prompt_bytes) + rb'\s*$'], or the fallback. *)
Definition detected_prompt_pattern (buf : str) : list piece :=
  match prompt_sample buf with
  | [] => fallback_prompt
  | p => lit p ++ [P_star bytes_space; P_eol]
  end.

(** The reading loops keep the last [tail_keep = 8192] bytes received:
    [tail.extend(data)], then [del tail[:len(tail) - tail_keep]] when longer. *)
Definition tail_keep : nat := 8 * 1024.

Definition tail_push (tail data : str) : str :=
  let t := tail ++ data in
  if (tail_keep <? length t)%nat then skipn (length t - tail_keep) t else t.

(** ** Telnet login *)

(** One [tn.read_very_eager()] of a waiting loop: the bytes read (possibly
    none), [socket.timeout]/[EOFError] (the loop continues), or another
    exception. *)
Inductive read_result :=
| RChunk (chunk : str)
| RTimeout
| RFatal.

Definition login_patterns : list str :=
  [s "login:"; s "Login:"; s "Username:"; s "username:"; s "User Name:";
   s "user name:"; s "User:"].
Definition password_patterns : list str :=
  [s "Password:"; s "password:"; s "Passwd:"; s "passwd:"].
Definition prompt_patterns : list str := [s "#"; s "$"; s ">"; s "%"].
Definition error_patterns : list str :=
  [s "incorrect"; s "error"; s "fail"; s "invalid"; s "denied"].

(** [TelnetConnection._wait_for_patterns]: [reads] are the reads made before
    the timeout expires. *)
Fixpoint wait_go (patterns : list str) (data : str) (reads : list read_result) : option str :=
  match reads with
  | [] => None
  | RChunk [] :: rs | RTimeout :: rs => wait_go patterns data rs
  | RChunk chunk :: rs =>
      let data := data ++ chunk in
      match find (fun pattern => contains data pattern) patterns with
      | Some pattern => Some pattern
      | None => wait_go patterns data rs
      end
  | RFatal :: _ => None
  end.

Definition wait_for_patterns (patterns : list str) (reads : list read_result) : option str :=
  wait_go patterns [] reads.

(** The 15-second loop of [TelnetConnection._verify_login]: [Some r] when it
    returns [r], [None] with the data gathered when the time runs out. *)
Fixpoint verify_go (login_data : str) (reads : list read_result) : option bool * str :=
  match reads with
  | [] => (None, login_data)
  | RChunk [] :: rs | RTimeout :: rs => verify_go login_data rs
  | RChunk chunk :: rs =>
      let login_data := login_data ++ chunk in
      if existsb (fun error => contains (bytes_lower login_data) error) error_patterns
      then (Some false, login_data)
      else if existsb (fun prompt => contains login_data prompt) prompt_patterns
      then (Some true, login_data)
      else verify_go login_data rs
  | RFatal :: _ => (Some false, login_data)
  end.

(** [TelnetConnection._verify_login]: the loop, then the final read (any
    exception of which is ignored) and the prompt check. *)
Definition verify_login (reads : list read_result) (final_check : read_result) : bool :=
  match verify_go [] reads with
  | (Some r, _) => r
  | (None, login_data) =>
      let login_data := match final_check with RChunk c => login_data ++ c | _ => login_data end in
      existsb (fun prompt => contains login_data prompt) prompt_patterns
  end.

(** ** [_sanitize_command] (connection_worker.py) *)

(** [x.replace(pat, "")] for a non-empty [pat], scanning left to right. *)
Fixpoint replace_go (fuel : nat) (pat x : str) : str :=
  match fuel with
  | O => x
  | S fuel' =>
      match x with
      | [] => []
      | c :: x' => if prefixb pat x then replace_go fuel' pat (skipn (length pat) x)
                   else c :: replace_go fuel' pat x'
      end
  end.

Definition replace_empty (pat x : str) : str := replace_go (length x) pat x.

(** The literal ["\\ufeff"]: a backslash, then [ufeff] (six characters). *)
Definition bom_literal : str := 92 :: s "ufeff".

(** The class [r"[\\u200B-\\u200F\\u202A-\\u202E\\u2060-\\u206F\\uFEFF]"]
    as [re] parses it: in a raw string each doubled backslash is an escaped
    backslash, so the class lists the characters of [\\u200B] ... one by
    one, with the three ranges [B-\\], [A-\\] and [0-\\]. *)
Definition in_zero_width (c : Z) : bool :=
  in_list [92; 117; 50; 48; 48] c || ((66 <=? c) && (c <=? 92)) ||
  in_list [117; 50; 48; 48; 70; 92; 117; 50; 48; 50] c || ((65 <=? c) && (c <=? 92)) ||
  in_list [117; 50; 48; 50; 69; 92; 117; 50; 48; 54] c || ((48 <=? c) && (c <=? 92)) ||
  in_list [117; 50; 48; 54; 70; 92; 117; 70; 69; 70; 70] c.

(** The class [r"[\\x00-\\x08\\x0B-\\x1F\\x7F]"] as [re] parses it: a
    backslash, [x], [0], the range [0-\\], then [x08], a backslash, [x0],
    the range [B-\\], [x1F], a backslash and [x7F]. *)
Definition in_control (c : Z) : bool :=
  in_list [92; 120; 48] c || ((48 <=? c) && (c <=? 92)) ||
  in_list [120; 48; 56; 92; 120; 48] c || ((66 <=? c) && (c <=? 92)) ||
  in_list [120; 49; 70; 92; 120; 55; 70] c.

(** What follows the first [>], if any. *)
Fixpoint after_gt (x : str) : option str :=
  match x with
  | [] => None
  | c :: x' => if c =? 62 then Some x' else after_gt x'
  end.

(** Drops leading [s]. *)
Fixpoint drop_s (x : str) : str :=
  match x with
  | 115 :: x' => drop_s x'
  | _ => x
  end.

(** [re.sub(r"^<[^>]*>\\s*", "", x)]: [<], then [[^>]*] up to the first
    [>] (it cannot pass one), then a literal backslash and [s*]. *)
Definition drop_prompt_prefix (x : str) : str :=
  match x with
  | 60 :: rest =>
      match after_gt rest with
      | Some (92 :: after) => drop_s after
      | _ => x
      end
  | _ => x
  end.

(** [re.sub(r"\\s+", " ", x)]: each backslash followed by one or more [s]
    becomes a space; [in_run] says whether such a run is being consumed. *)
Fixpoint sub_backslash_s_go (in_run : bool) (x : str) : str :=
  match x with
  | [] => []
  | c :: x' =>
      if in_run && (c =? 115) then sub_backslash_s_go true x'
      else if (c =? 92) && match x' with 115 :: _ => true | _ => false end
      then 32 :: sub_backslash_s_go true x'
      else c :: sub_backslash_s_go false x'
  end.

Definition sub_backslash_s (x : str) : str := sub_backslash_s_go false x.

(** [_sanitize_command]; [None] is [cmd is None]. *)
Definition sanitize_command (cmd : option str) : str :=
  match cmd with
  | None => []
  | Some cmd =>
      let cmd := replace_empty bom_literal cmd in
      let cmd := filter (fun c => negb (in_zero_width c)) cmd in
      let cmd := filter (fun c => negb (in_control c)) cmd in
      let cmd := drop_prompt_prefix cmd in
      strip (sub_backslash_s cmd)
  end.

(** * Properties *)

(** ** Text lemmas *)

Lemma str_eqb_eq (a b : str) : str_eqb a b = true <-> a = b.
Proof.
  revert b; induction a as [|x a IH]; intros [|y b]; simpl; try easy.
  rewrite andb_true_iff, IH, Z.eqb_eq. split; [intros [-> ->]; reflexivity|].
  intros H; injection H; auto.
Qed.

Lemma remove_nul_chars (x : str) (c : Z) : In c (remove_nul x) -> In c x.
Proof. unfold remove_nul; rewrite filter_In; tauto. Qed.

Lemma replace_crlf_chars (x : str) (c : Z) : In c (replace_crlf x) -> In c x \/ c = LF.
Proof.
  remember (length x) as n eqn:Hn. assert (Hle : (length x <= n)%nat) by lia. clear Hn.
  revert x Hle; induction n as [|n IH]; intros [|a x] Hle; simpl in *; try tauto; try lia.
  destruct (a =? CR).
  - destruct x as [|d x']; [simpl; intuition|].
    destruct (d =? LF); simpl.
    + intros [<-|Hc]; [tauto|]. destruct (IH x') as [H|H]; simpl in *; auto; lia.
    + intros [->|Hc]; [tauto|]. destruct (IH (d :: x')) as [H|H]; auto; lia.
  - simpl. intros [->|Hc]; [tauto|]. destruct (IH x) as [H|H]; auto; lia.
Qed.

Lemma replace_cr_chars (x : str) (c : Z) : In c (replace_cr x) -> In c x \/ c = LF.
Proof.
  unfold replace_cr; rewrite in_map_iff. intros [a [<- Ha]].
  destruct (a =? CR); auto.
Qed.

Lemma replace_cr_no_cr (x : str) : ~ In CR (replace_cr x).
Proof.
  unfold replace_cr; rewrite in_map_iff. intros [a [Ha _]].
  destruct (a =? CR) eqn:E; [unfold LF, CR in Ha; discriminate|].
  subst a; rewrite Z.eqb_refl in E; discriminate.
Qed.

(** The text the formatter splits into lines. *)
Definition normalized (o : str) : str := replace_cr (replace_crlf (remove_nul o)).

Lemma normalized_chars (o : str) (c : Z) : In c (normalized o) -> In c o \/ c = LF.
Proof.
  unfold normalized; intros H.
  destruct (replace_cr_chars _ _ H) as [H1|]; [|tauto].
  destruct (replace_crlf_chars _ _ H1) as [H2|]; [|tauto].
  left; apply remove_nul_chars; exact H2.
Qed.

Lemma splitlines_go_chars (x cur : str) (b : bool) (l : str) (c : Z) :
  In l (splitlines_go cur b x) -> In c l -> In c cur \/ In c x.
Proof.
  revert cur b; induction x as [|a x IH]; intros cur b; simpl.
  - destruct cur as [|z cur]; [simpl; tauto|]. intros [<-|[]] H2.
    rewrite <- in_rev in H2. tauto.
  - destruct (b && (a =? LF)).
    { intros H1 H2. destruct (IH _ _ H1 H2); tauto. }
    destruct (a =? CR).
    { intros [<-|H1] H2; [rewrite <- in_rev in H2; tauto|].
      destruct (IH _ _ H1 H2) as [[]|]; tauto. }
    destruct (is_line_break a).
    { intros [<-|H1] H2; [rewrite <- in_rev in H2; tauto|].
      destruct (IH _ _ H1 H2) as [[]|]; tauto. }
    intros H1 H2. destruct (IH _ _ H1 H2) as [[->|]|]; tauto.
Qed.

Lemma splitlines_chars (x l : str) (c : Z) : In l (splitlines x) -> In c l -> In c x.
Proof.
  unfold splitlines; intros H1 H2. destruct (splitlines_go_chars _ _ _ _ _ H1 H2) as [[]|]; auto.
Qed.

Lemma drop_blank_sub (ls : list str) (l : str) : In l (drop_blank ls) -> In l ls.
Proof.
  induction ls as [|a ls IH]; simpl; [tauto|].
  destruct (strip a); [intros H; right; auto | tauto].
Qed.

Lemma join_chars (sep : str) (ls : list str) (c : Z) :
  In c (join sep ls) -> In c sep \/ exists l, In l ls /\ In c l.
Proof.
  induction ls as [|a ls IH]; simpl; [tauto|].
  destruct ls as [|b ls'].
  - intros H. right. exists a. simpl; auto.
  - rewrite !in_app_iff. intros [H|[H|H]].
    + right; exists a; simpl; auto.
    + left; exact H.
    + destruct (IH H) as [|[l [Hl Hc]]]; [tauto|]. right; exists l; split; [right|]; auto.
Qed.

Lemma lstrip_all_space (x : str) : forallb is_space x = true -> lstrip x = [].
Proof.
  induction x as [|a x IH]; simpl; [reflexivity|].
  rewrite andb_true_iff; intros [-> H]; auto.
Qed.

Lemma strip_all_space (x : str) : forallb is_space x = true -> strip x = [].
Proof. intros H; unfold strip; rewrite (lstrip_all_space x H); reflexivity. Qed.

Lemma drop_blank_all_blank (ls : list str) :
  (forall l, In l ls -> forallb is_space l = true) -> drop_blank ls = [].
Proof.
  induction ls as [|a ls IH]; simpl; [reflexivity|]. intros H.
  rewrite (strip_all_space a (H a (or_introl eq_refl))). apply IH; auto.
Qed.

(** ** The output formatter *)

(** The lines of the normalized output, leading blank lines dropped. *)
Definition output_lines (o : str) : list str := drop_blank (splitlines (normalized o)).

(** The body the formatter puts between the command line and the blank line. *)
Definition format_body (cmd : str) (o : str) : str :=
  join [LF] (match output_lines o with
             | head :: rest =>
                 if str_eqb (strip head) cmd || ends_with (strip head) cmd then rest
                 else head :: rest
             | [] => []
             end).

Lemma format_command_output_eq (command output : str) (success : bool) :
  format_command_output command (Some output) success =
  strip command ++ [LF] ++ format_body (strip command) output ++ [LF; LF].
Proof.
  unfold format_command_output, format_body, output_lines, normalized.
  destruct (drop_blank _); reflexivity.
Qed.

Lemma output_lines_no_cr (o l : str) : In l (output_lines o) -> ~ In CR l.
Proof.
  unfold output_lines; intros Hl Hc.
  apply drop_blank_sub in Hl.
  apply (replace_cr_no_cr (replace_crlf (remove_nul o))).
  exact (splitlines_chars _ _ _ Hl Hc).
Qed.

Lemma format_body_no_cr (cmd o : str) : ~ In CR (format_body cmd o).
Proof.
  unfold format_body. intros H.
  destruct (join_chars _ _ _ H) as [[E|[]]|[l [Hl Hc]]]; [unfold LF, CR in E; discriminate|].
  destruct (output_lines o) as [|head rest] eqn:E; [destruct Hl|].
  assert (Hl' : In l (output_lines o)).
  { rewrite E. destruct (_ || _); [right|]; exact Hl. }
  exact (output_lines_no_cr _ _ Hl' Hc).
Qed.

Example format_ex2 :
  format_command_output (s "dis cur") (Some (s "A" ++ [CR; LF] ++ s "B" ++ [CR] ++ s "C")) true = s "dis cur
A
B
C

".
Proof. reflexivity. Qed.

(** C5: the formatter returns ["<command>\n<body>\n\n"], with the command
    stripped, a body free of CR, and the first non-blank line of the
    normalized output removed exactly when, stripped, it equals the command
    or ends with it. *)
Theorem format_command_output_block (command output : str) (success : bool) :
  let cmd := strip command in
  exists body,
    format_command_output command (Some output) success = cmd ++ [LF] ++ body ++ [LF; LF]
    /\ ~ In CR body
    /\ (forall head rest, output_lines output = head :: rest ->
          (strip head = cmd \/ ends_with (strip head) cmd = true) -> body = join [LF] rest)
    /\ (forall head rest, output_lines output = head :: rest ->
          strip head <> cmd -> ends_with (strip head) cmd = false ->
          body = join [LF] (head :: rest))
    /\ (output_lines output = [] -> body = []).
Proof.
  intros cmd. exists (format_body cmd output).
  split; [apply format_command_output_eq|].
  split; [apply format_body_no_cr|].
  unfold format_body. split; [|split].
  - intros head rest E [H|H]; rewrite E.
    + apply str_eqb_eq in H. rewrite H. reflexivity.
    + rewrite H, orb_true_r. reflexivity.
  - intros head rest E H1 H2; rewrite E.
    destruct (str_eqb (strip head) cmd) eqn:E1; [apply str_eqb_eq in E1; contradiction|].
    rewrite H2. reflexivity.
  - intros E; rewrite E; reflexivity.
Qed.

Lemma output_lines_all_blank (o : str) :
  forallb is_space o = true -> output_lines o = [].
Proof.
  intros H. unfold output_lines. apply drop_blank_all_blank.
  intros l Hl. apply forallb_forall. intros c Hc.
  destruct (normalized_chars _ _ (splitlines_chars _ _ _ Hl Hc)) as [Ho| ->].
  - rewrite forallb_forall in H. exact (H c Ho).
  - reflexivity.
Qed.

(** C10: with no output ([None]) the formatter returns
    ["<command>\n\n\n"]; so it does for an output made only of blank lines. *)
Theorem format_command_output_empty (command : str) (success : bool) :
  format_command_output command None success = strip command ++ [LF; LF; LF]
  /\ (forall output, forallb is_space output = true ->
        format_command_output command (Some output) success = strip command ++ [LF; LF; LF]).
Proof.
  split.
  - reflexivity.
  - intros output H. rewrite format_command_output_eq.
    unfold format_body. rewrite (output_lines_all_blank output H). reflexivity.
Qed.

Lemma format_command_output_empty_witness :
  forallb is_space [32; CR; LF; 9; LF] = true /\
  format_command_output (s "show clock") (Some [32; CR; LF; 9; LF]) true
    = strip (s "show clock") ++ [LF; LF; LF].
Proof.
  split; [reflexivity|].
  apply (proj2 (format_command_output_empty (s "show clock") true)). reflexivity.
Defined.

(** ** The two session readers *)

(** C2: for the device output ["a\n\nb"] (no truncation), the SSH reader
    keeps the blank line and the Telnet reader drops it, so the formatted
    blocks of command ["c"] differ: ["c\na\n\nb\n\n"] against ["c\na\nb\n\n"]. *)
Theorem readers_diverge_on_blank_line :
  let raw := s "a" ++ [LF; LF] ++ s "b" in
  format_command_output (s "c") (Some (ssh_read_finish raw false)) true
    = s "c" ++ [LF] ++ s "a" ++ [LF; LF] ++ s "b" ++ [LF; LF]
  /\ format_command_output (s "c") (Some (telnet_read_finish raw false)) true
    = s "c" ++ [LF] ++ s "a" ++ [LF] ++ s "b" ++ [LF; LF]
  /\ format_command_output (s "c") (Some (ssh_read_finish raw false)) true
    <> format_command_output (s "c") (Some (telnet_read_finish raw false)) true.
Proof. split; [reflexivity|]. split; [reflexivity|]. vm_compute. discriminate. Qed.

(** ** The fallback prompt pattern *)

Lemma star_here (f : Z -> bool) (k : str -> bool) (x : str) :
  k x = true -> star f k x = true.
Proof. destruct x; simpl; intros ->; [reflexivity | apply orb_true_r]. Qed.

Lemma star_all (f : Z -> bool) (k : str -> bool) (xs y : str) :
  forallb f xs = true -> k y = true -> star f k (xs ++ y) = true.
Proof.
  intros Hxs Hk. induction xs as [|a xs IH]; simpl.
  - apply star_here; exact Hk.
  - simpl in Hxs. apply andb_true_iff in Hxs as [Ha Hxs].
    rewrite Ha, IH by exact Hxs. reflexivity.
Qed.

Lemma search_app (ps : list piece) (pre y : str) :
  matches ps y = true -> search ps (pre ++ y) = true.
Proof.
  intros H. induction pre as [|a pre IH]; simpl.
  - destruct y; simpl in *; rewrite H; reflexivity.
  - rewrite IH, orb_true_r. reflexivity.
Qed.

(** C8 (counterexample): the buffer ["R1#"] ends in a path-like token and a
    prompt character, but the fallback pattern needs a line break before the
    token and does not match it. *)
Lemma fallback_prompt_needs_line_break :
  fallback_prompt_matches (s "R1#") = false.
Proof. reflexivity. Qed.

(** C8 (amended): the fallback pattern matches every buffer whose end is a
    CR or LF, a non-empty token of [[\w\-\.:/@]], one of [#], [>], [$], [%],
    and bytes-whitespace only. *)
Theorem fallback_prompt_matches_line_end (pre tok ws : str) (brk pc : Z) :
  in_list [CR; LF] brk = true -> tok <> [] -> forallb token_class tok = true ->
  prompt_char pc = true -> forallb bytes_space ws = true ->
  fallback_prompt_matches (pre ++ brk :: tok ++ pc :: ws) = true.
Proof.
  intros Hb Htok Hcls Hpc Hws. unfold fallback_prompt_matches.
  apply search_app. unfold fallback_prompt. cbn [matches]. rewrite Hb, andb_true_l.
  destruct tok as [|t tok']; [contradiction|]. cbn [forallb app] in *.
  apply andb_true_iff in Hcls as [Ht Hcls]. rewrite Ht, andb_true_l.
  apply star_all; [exact Hcls|]. cbn [matches]. rewrite Hpc, andb_true_l.
  rewrite <- (app_nil_r ws). apply star_all; [exact Hws|]. reflexivity.
Qed.

Lemma fallback_prompt_matches_line_end_witness :
  fallback_prompt_matches (s "show ip" ++ [LF] ++ s "core-sw1:/cfg" ++ [35; 32]) = true.
Proof.
  apply (fallback_prompt_matches_line_end (s "show ip") (s "core-sw1:/cfg") [32] LF 35);
    first [reflexivity | discriminate].
Defined.

(** ** Parameter validation *)

Definition protocol_ok (protocol : str) : bool :=
  str_eqb protocol (s "ssh") || str_eqb protocol (s "telnet").

(** C9: every check contributes its own error, independently of the others
    (the IP is reported once: empty, or not matching the dotted-quad
    pattern), the result is valid exactly when no error was collected, and
    [run] with a non-empty error list emits only the validation error and
    makes no connection attempt. *)
Theorem validate_collects_all_errors (p : Worker.params) (env : Worker.run_env) :
  let v := validate_connection_params (Worker.p_protocol p) (Worker.p_ip p)
             (Worker.p_port p) (Worker.p_username p) (Worker.p_password p) in
  errors v =
    (if protocol_ok (Worker.p_protocol p) then [] else [err_protocol]) ++
    (if is_empty (Worker.p_ip p) then [err_ip_empty]
     else if re_match ipv4_pattern (Worker.p_ip p) then [] else [err_ip_format]) ++
    (if (Worker.p_port p <? 1) || (Worker.p_port p >? 65535) then [err_port] else []) ++
    (if is_empty (Worker.p_username p) then [err_username] else []) ++
    (if is_empty (Worker.p_password p) then [err_password] else [])
  /\ (valid v = true <-> errors v = [])
  /\ (errors v <> [] ->
      Worker.run p env = [Worker.EvError (s "validation") (join (s "; ") (errors v))]
      /\ forall proto, ~ In (Worker.EvConnectAttempt proto) (Worker.run p env)).
Proof.
  intros v.
  assert (E : errors v =
    (if protocol_ok (Worker.p_protocol p) then [] else [err_protocol]) ++
    (if is_empty (Worker.p_ip p) then [err_ip_empty]
     else if re_match ipv4_pattern (Worker.p_ip p) then [] else [err_ip_format]) ++
    (if (Worker.p_port p <? 1) || (Worker.p_port p >? 65535) then [err_port] else []) ++
    (if is_empty (Worker.p_username p) then [err_username] else []) ++
    (if is_empty (Worker.p_password p) then [err_password] else [])).
  { subst v; unfold validate_connection_params, protocol_ok; cbn [errors].
    destruct (str_eqb (Worker.p_protocol p) (s "ssh") || str_eqb (Worker.p_protocol p) (s "telnet")),
      (is_empty (Worker.p_ip p)), (re_match ipv4_pattern (Worker.p_ip p)),
      ((Worker.p_port p <? 1) || (Worker.p_port p >? 65535)),
      (is_empty (Worker.p_username p)), (is_empty (Worker.p_password p));
      reflexivity. }
  assert (Hv : valid v = true <-> errors v = []).
  { subst v; unfold validate_connection_params; simpl.
    rewrite Nat.eqb_eq, length_zero_iff_nil. reflexivity. }
  split; [exact E|]. split; [exact Hv|].
  intros Hne.
  assert (Hrun : Worker.run p env = [Worker.EvError (s "validation") (join (s "; ") (errors v))]).
  { unfold Worker.run. fold v.
    destruct (valid v) eqn:Hvv; [exfalso; apply Hne, Hv; reflexivity|]. reflexivity. }
  split; [exact Hrun|]. intros proto. rewrite Hrun. simpl. intros [H|[]]; discriminate.
Qed.

Definition worker_env (running : bool) : Worker.cmd_env :=
  {| Worker.env_running := running; Worker.env_exec := Worker.Returned true (s "ok");
     Worker.env_ts := s "20260101-000000"; Worker.env_io_ok := Buffer.IoOk |}.

Definition sample_run_env (connect : bool) (envs : nat -> Worker.cmd_env) : Worker.run_env :=
  {| Worker.makedirs_error := None; Worker.connect_ok := connect; Worker.cmd_envs := envs;
     Worker.run_elapsed := 3; Worker.fin_ts_flush := s "20260101-000001";
     Worker.fin_io_ok := Buffer.IoOk; Worker.fin_clock := 3;
     Worker.fin_ts_path := s "20260101-000001"; Worker.fin_create_ok := true;
     Worker.fallback_ts := s "20260101-000001" |}.

Definition bad_params : Worker.params :=
  {| Worker.p_protocol := s "ssh"; Worker.p_ip := s "10.0.0"; Worker.p_port := 0;
     Worker.p_username := s "admin"; Worker.p_password := s "pw";
     Worker.p_commands := [s "show version"]; Worker.p_mode := s "before";
     Worker.p_output_dir := s "out" |}.

Lemma validate_collects_all_errors_witness :
  errors (validate_connection_params (s "ssh") (s "10.0.0") 0 (s "admin") (s "pw"))
    = [err_ip_format; err_port]
  /\ Worker.run bad_params (sample_run_env true (fun _ => worker_env true))
    = [Worker.EvError (s "validation") (join (s "; ") [err_ip_format; err_port])].
Proof.
  split; [reflexivity|].
  apply (proj1 (proj2 (proj2 (validate_collects_all_errors bad_params
                                (sample_run_env true (fun _ => worker_env true)))) ltac:(discriminate))).
Defined.

(** ** BufferManager *)

Section BufferProps.
Import Buffer.
Variable encoded_len : str -> N.

Lemma flush_buffer_total (b : BufferManager) ts ok fs :
  let '(b', _, _) := flush_buffer b ts ok fs in total_bytes b' = total_bytes b.
Proof. unfold flush_buffer. destruct (output_buffer b); [|destruct ok as [|[w|]]]; reflexivity. Qed.

Lemma add_data_spec (b : BufferManager) data ts ok fs :
  let '(b', fs', accepted) := add_data encoded_len b data ts ok fs in
  (accepted = false <-> (max_output_size < total_bytes b + encoded_len data)%N)
  /\ (accepted = false -> b' = b /\ fs' = fs)
  /\ (accepted = true -> total_bytes b' = (total_bytes b + encoded_len data)%N).
Proof.
  unfold add_data.
  destruct (max_output_size <? total_bytes b + encoded_len data)%N eqn:E.
  - apply N.ltb_lt in E. repeat split; auto; discriminate.
  - apply N.ltb_ge in E.
    assert (Hf := flush_buffer_total b ts ok fs).
    destruct (max_buffer_size <? buffer_size b + encoded_len data)%N.
    + destruct (flush_buffer b ts ok fs) as [[b1 fs1] r].
      unfold max_output_size in *. cbn in Hf |- *.
      repeat split; intros; try discriminate; lia.
    + unfold max_output_size in *. cbn. repeat split; intros; try discriminate; lia.
Qed.

Lemma finalize_total (b : BufferManager) t1 ok el t2 c fs :
  let '(b', _, _) := finalize b t1 ok el t2 c fs in total_bytes b' = total_bytes b.
Proof.
  unfold finalize. assert (H := flush_buffer_total b t1 ok fs).
  destruct (flush_buffer b t1 ok fs) as [[b1 fs1] r].
  destruct (fs1 (get_last_filepath b1 t2)), c; exact H.
Qed.

Lemma step_total (st : BufferManager * FS) (o : op) :
  (total_bytes (fst st) <= total_bytes (fst (step encoded_len st o)))%N
  /\ ((total_bytes (fst st) <= max_output_size)%N ->
      (total_bytes (fst (step encoded_len st o)) <= max_output_size)%N).
Proof.
  destruct st as [b fs]. destruct o as [d ts ok|ts ok|t1 ok el t2 c]; cbn [step].
  - assert (H := add_data_spec b d ts ok fs).
    destruct (add_data encoded_len b d ts ok fs) as [[b' fs'] [|]]; cbn [fst];
      destruct H as [H1 [H2 H3]].
    + rewrite H3 by reflexivity. split; [lia|]. intros _.
      destruct (max_output_size <? total_bytes b + encoded_len d)%N eqn:E.
      * apply N.ltb_lt in E. assert (true = false) by (apply H1; exact E). discriminate.
      * apply N.ltb_ge in E. lia.
    + destruct (H2 eq_refl) as [-> _]. split; intros; lia.
  - assert (H := flush_buffer_total b ts ok fs).
    destruct (flush_buffer b ts ok fs) as [[b' fs'] r]; cbn [fst]. split; intros; lia.
  - assert (H := finalize_total b t1 ok el t2 c fs).
    destruct (finalize b t1 ok el t2 c fs) as [[b' fs'] r]; cbn [fst]. split; intros; lia.
Qed.

Lemma run_ops_total (st : BufferManager * FS) (ops : list op) :
  (total_bytes (fst st) <= total_bytes (fst (run_ops encoded_len st ops)))%N
  /\ ((total_bytes (fst st) <= max_output_size)%N ->
      (total_bytes (fst (run_ops encoded_len st ops)) <= max_output_size)%N).
Proof.
  unfold run_ops. revert st; induction ops as [|o ops IH]; intros st; cbn [fold_left].
  - split; intros; lia.
  - destruct (step_total st o) as [H1 H2]. destruct (IH (step encoded_len st o)) as [H3 H4].
    split; [lia|]. intros H. apply H4, H2, H.
Qed.

End BufferProps.

Lemma str_eqb_refl (a : str) : str_eqb a a = true.
Proof. apply str_eqb_eq; reflexivity. Qed.

(** C3: a rejected [add_data] (the block would take the accepted bytes past
    50MB) returns false and changes neither the manager nor the files; an
    accepted one adds the block's byte size to [total_bytes]; over any
    sequence of calls from a fresh manager [total_bytes] stays within the
    cap and never decreases. *)
Theorem add_data_respects_cap (encoded_len : str -> N) (b : Buffer.BufferManager)
    (data ts : str) (ok : Buffer.io_outcome) (fs : FS) (dir mode ip : str) (fs0 : FS)
    (ops ops' : list Buffer.op) :
  (let '(b', fs', accepted) := Buffer.add_data encoded_len b data ts ok fs in
   (accepted = false <->
      (Buffer.max_output_size < Buffer.total_bytes b + encoded_len data)%N)
   /\ (accepted = false -> b' = b /\ fs' = fs)
   /\ (accepted = true -> Buffer.total_bytes b' = (Buffer.total_bytes b + encoded_len data)%N))
  /\ (Buffer.total_bytes (fst (Buffer.run_ops encoded_len (Buffer.init dir mode ip, fs0) ops))
        <= Buffer.max_output_size)%N
  /\ (Buffer.total_bytes (fst (Buffer.run_ops encoded_len (Buffer.init dir mode ip, fs0) ops))
        <= Buffer.total_bytes (fst (Buffer.run_ops encoded_len (Buffer.init dir mode ip, fs0)
                                                (ops ++ ops'))))%N.
Proof.
  split; [apply add_data_spec|]. split.
  - apply run_ops_total. cbn. unfold Buffer.max_output_size. lia.
  - unfold Buffer.run_ops at 2. rewrite fold_left_app. apply run_ops_total.
Qed.

Definition full_manager : Buffer.BufferManager :=
  {| Buffer.output_dir := s "out"; Buffer.mode := s "before"; Buffer.ip := s "10.0.0.1";
     Buffer.output_buffer := [s "x"]; Buffer.buffer_size := 1;
     Buffer.total_bytes := Buffer.max_output_size; Buffer.last_filepath := [] |}.

Lemma add_data_respects_cap_witness :
  fst (fst (Buffer.add_data utf8_len full_manager (s "y") (s "20260101-000000") Buffer.IoOk
              (fun _ => None))) = full_manager.
Proof.
  pose proof (add_data_respects_cap utf8_len full_manager (s "y") (s "20260101-000000") Buffer.IoOk
                (fun _ => None) (s "out") (s "before") (s "10.0.0.1") (fun _ => None) [] [])
    as [H _].
  change (Buffer.add_data utf8_len full_manager (s "y") (s "20260101-000000") Buffer.IoOk (fun _ => None))
    with (full_manager, (fun _ : str => @None str), false) in H |- *.
  destruct H as [_ [H _]]. exact (proj1 (H eq_refl)).
Defined.

Definition fresh_manager : Buffer.BufferManager :=
  Buffer.init (s "out") (s "before") (s "10.0.0.1").

Definition ts1 : str := s "20260101-120000".
Definition ts2 : str := s "20260101-120001".

(** C6 (counterexample): two flushes of one run, one second apart, write two
    different files: the name is built again from the clock at each flush. *)
Lemma flushes_use_different_files :
  let st := Buffer.run_ops utf8_len (fresh_manager, fun _ => None)
              [Buffer.OpAdd (s "x") ts1 Buffer.IoOk; Buffer.OpFlush ts1 Buffer.IoOk;
               Buffer.OpAdd (s "y") ts2 Buffer.IoOk; Buffer.OpFlush ts2 Buffer.IoOk] in
  Buffer.session_path fresh_manager ts1 <> Buffer.session_path fresh_manager ts2
  /\ snd st (Buffer.session_path fresh_manager ts1) = Some (s "x")
  /\ snd st (Buffer.session_path fresh_manager ts2) = Some (s "y").
Proof. vm_compute. split; [discriminate|]. split; reflexivity. Qed.

(** C6 (amended): a flush of a non-empty buffer that succeeds appends the
    buffered blocks to the file named from mode, host and the clock reading
    of that flush (creating it if absent), touches no other file, empties the
    buffer and records that path; the manager keeps its directory, mode and
    host, so a later flush at the same clock reading reuses the file.  A
    flush whose I/O fails returns false and keeps the manager as it was
    (buffer, size and recorded path); the only file it can have changed is
    the one it was writing (created, or partly written).  With an empty
    buffer, flush returns false and changes nothing. *)
Theorem flush_buffer_writes_timestamped_file (b : Buffer.BufferManager) (ts : str)
    (ok : Buffer.io_outcome) (fs : FS) :
  (Buffer.output_buffer b <> [] -> ok = Buffer.IoOk ->
   let p := Buffer.session_path b ts in
   let '(b', fs', r) := Buffer.flush_buffer b ts ok fs in
   r = true /\ Buffer.output_buffer b' = [] /\ Buffer.last_filepath b' = p
   /\ fs' p = Some (match fs p with Some c => c | None => [] end
                    ++ concat (Buffer.output_buffer b))
   /\ (forall q, q <> p -> fs' q = fs q)
   /\ (forall ts', Buffer.session_path b' ts' = Buffer.session_path b ts'))
  /\ (forall x, ok = Buffer.IoFail x ->
      let '(b', fs', r) := Buffer.flush_buffer b ts ok fs in
      r = false /\ b' = b /\ (forall q, q <> Buffer.session_path b ts -> fs' q = fs q))
  /\ (Buffer.output_buffer b = [] -> Buffer.flush_buffer b ts ok fs = (b, fs, false)).
Proof.
  split; [|split].
  - intros Hne -> p. unfold Buffer.flush_buffer.
    destruct (Buffer.output_buffer b) as [|d ds] eqn:E; [contradiction|].
    cbn -[Buffer.session_path]. fold p.
    split; [reflexivity|]. split; [reflexivity|]. split; [reflexivity|].
    split; [unfold fs_write; rewrite str_eqb_refl; reflexivity|].
    split; [|reflexivity].
    intros q Hq. unfold fs_write. destruct (str_eqb q p) eqn:Eq; [|reflexivity].
    apply str_eqb_eq in Eq. contradiction.
  - intros x ->. unfold Buffer.flush_buffer.
    destruct (Buffer.output_buffer b); [repeat split; auto|].
    destruct x as [w|]; (split; [reflexivity|]); (split; [reflexivity|]); [|reflexivity].
    intros q Hq. unfold fs_write. destruct (str_eqb q _) eqn:Eq; [|reflexivity].
    apply str_eqb_eq in Eq. contradiction.
  - intros H. unfold Buffer.flush_buffer. rewrite H. reflexivity.
Qed.

Lemma flush_buffer_writes_timestamped_file_witness :
  let b := fst (Buffer.run_ops utf8_len (fresh_manager, fun _ => None)
                  [Buffer.OpAdd (s "x") ts1 Buffer.IoOk]) in
  Buffer.last_filepath (fst (fst (Buffer.flush_buffer b ts1 Buffer.IoOk (fun _ => None))))
    = Buffer.session_path b ts1.
Proof.
  intros b.
  pose proof (proj1 (flush_buffer_writes_timestamped_file b ts1 Buffer.IoOk (fun _ => None))
                ltac:(vm_compute; discriminate) eq_refl) as H.
  cbv zeta in H.
  destruct (Buffer.flush_buffer b ts1 Buffer.IoOk (fun _ => None)) as [[b' fs'] r].
  exact (proj1 (proj2 (proj2 H))).
Defined.

(** Two successive [finalize()] calls; their paths and the files after each. *)
Definition finalize_twice (b : Buffer.BufferManager) (fs : FS)
    (t1 : str) (ok1 : Buffer.io_outcome) (el1 : Q) (tp1 : str) (c1 : bool)
    (t2 : str) (ok2 : Buffer.io_outcome) (el2 : Q) (tp2 : str) (c2 : bool) : str * FS * str * FS :=
  let '(b1, fs1, r1) := Buffer.finalize b t1 ok1 el1 tp1 c1 fs in
  let '(_, fs2, r2) := Buffer.finalize b1 t2 ok2 el2 tp2 c2 fs1 in
  (Buffer.fin_filepath r1, fs1, Buffer.fin_filepath r2, fs2).

(** C7 (counterexample): in a run where no data was added, two [finalize()]
    calls one second apart return two different paths (each one a fresh
    empty file named from the clock). *)
Lemma finalize_twice_no_data_paths_differ :
  let '(p1, _, p2, _) := finalize_twice fresh_manager (fun _ => None)
                           ts1 Buffer.IoOk 1 ts1 true ts2 Buffer.IoOk 2 ts2 true in
  p1 <> p2.
Proof. vm_compute. discriminate. Qed.

(** C7 (amended): when the first [finalize()] leaves the buffer empty (its
    flush succeeded or there was nothing pending), some flush of the run has
    already succeeded, and it returned a non-empty path, a second
    [finalize()] returns the same [filepath], [total_bytes] and
    [output_dir] (only [duration] and [speed_kb_s] are computed again, from
    the clock of that call) and leaves the manager and the files unchanged,
    whatever its clock and I/O. *)
Theorem finalize_idempotent_after_flush (b : Buffer.BufferManager) (fs : FS)
    (t1 : str) (ok1 : Buffer.io_outcome) (el1 : Q) (tp1 : str) (c1 : bool)
    (t2 : str) (ok2 : Buffer.io_outcome) (el2 : Q) (tp2 : str) (c2 : bool)
    (b1 : Buffer.BufferManager) (fs1 : FS) (r1 : Buffer.final_stats) :
  Buffer.finalize b t1 ok1 el1 tp1 c1 fs = (b1, fs1, r1) ->
  Buffer.output_buffer b1 = [] -> Buffer.last_filepath b1 <> [] ->
  Buffer.fin_filepath r1 <> [] ->
  Buffer.finalize b1 t2 ok2 el2 tp2 c2 fs1
    = (b1, fs1, {| Buffer.fin_elapsed := el2; Buffer.fin_total_bytes := Buffer.fin_total_bytes r1;
                   Buffer.fin_output_dir := Buffer.fin_output_dir r1;
                   Buffer.fin_filepath := Buffer.fin_filepath r1 |}).
Proof.
  intros H1 Hbuf Hlast Hr1.
  assert (Hget : forall ts, Buffer.get_last_filepath b1 ts = Buffer.last_filepath b1).
  { intros ts. unfold Buffer.get_last_filepath.
    destruct (Buffer.last_filepath b1); [contradiction | reflexivity]. }
  unfold Buffer.finalize in H1.
  destruct (Buffer.flush_buffer b t1 ok1 fs) as [[b1' fs1'] x].
  unfold Buffer.finalize. unfold Buffer.flush_buffer at 1. rewrite Hbuf, (Hget tp2).
  destruct (fs1' (Buffer.get_last_filepath b1' tp1)) eqn:E; [|destruct c1];
    injection H1 as <- <- <-; rewrite (Hget tp1) in *.
  - rewrite E. reflexivity.
  - unfold fs_write at 1. rewrite str_eqb_refl. reflexivity.
  - cbn in Hr1. contradiction.
Qed.

Lemma finalize_idempotent_after_flush_witness :
  let b := fst (Buffer.run_ops utf8_len (fresh_manager, fun _ => None)
                  [Buffer.OpAdd (s "x") ts1 Buffer.IoOk]) in
  let '(b1, fs1, r1) := Buffer.finalize b ts1 Buffer.IoOk 1 ts1 true (fun _ => None) in
  Buffer.finalize b1 ts2 (Buffer.IoFail (Some (s "y"))) 2 ts2 false fs1
    = (b1, fs1, {| Buffer.fin_elapsed := 2; Buffer.fin_total_bytes := Buffer.fin_total_bytes r1;
                   Buffer.fin_output_dir := Buffer.fin_output_dir r1;
                   Buffer.fin_filepath := Buffer.fin_filepath r1 |}).
Proof.
  intros b.
  destruct (Buffer.finalize b ts1 Buffer.IoOk 1 ts1 true (fun _ => None)) as [[b1 fs1] r1] eqn:E.
  apply (finalize_idempotent_after_flush b (fun _ => None) ts1 Buffer.IoOk 1 ts1 true
           ts2 (Buffer.IoFail (Some (s "y"))) 2 ts2 false b1 fs1 r1 E).
  all: vm_compute in E; injection E as <- <- <-; first [reflexivity | discriminate].
Defined.

(** ** The command loop *)

Section WorkerProps.
Import Worker.

Lemma add_data_appends (b : Buffer.BufferManager) data ts ok fs :
  snd (Buffer.add_data utf8_len b data ts ok fs) = true ->
  exists pre, Buffer.output_buffer (fst (fst (Buffer.add_data utf8_len b data ts ok fs)))
              = pre ++ [data].
Proof.
  unfold Buffer.add_data.
  destruct (Buffer.max_output_size <? _)%N; [discriminate|].
  destruct (Buffer.flush_buffer b ts ok fs) as [[b1 fs1] r].
  destruct (Buffer.max_buffer_size <? _)%N; intros _; eexists; reflexivity.
Qed.

Lemma exec_one_counts (e : cmd_env) (cmd : str) (w : worker) :
  total_commands (w_stats (exec_one e cmd w)) = total_commands (w_stats w)
  /\ (completed_commands (w_stats (exec_one e cmd w)) + failed_commands (w_stats (exec_one e cmd w))
      = S (completed_commands (w_stats w) + failed_commands (w_stats w)))%nat.
Proof.
  unfold exec_one. destruct (env_exec e) as [succ out|msg].
  - destruct (Buffer.add_data _ _ _ _ _ _) as [[b' fs'] [|]]; cbn; split; lia.
  - destruct (Buffer.add_data _ _ _ _ _ _) as [[b' fs'] acc]; cbn; split; lia.
Qed.

Lemma execute_commands_counts (env : nat -> cmd_env) (cmds : list str) (i : nat) (w : worker) :
  exists k, (k <= length cmds)%nat
  /\ total_commands (w_stats (execute_commands env i cmds w)) = total_commands (w_stats w)
  /\ (completed_commands (w_stats (execute_commands env i cmds w))
      + failed_commands (w_stats (execute_commands env i cmds w))
      = completed_commands (w_stats w) + failed_commands (w_stats w) + k)%nat
  /\ ((forall j, (j < length cmds)%nat -> env_running (env (i + j)%nat) = true) ->
      k = length cmds).
Proof.
  revert i w; induction cmds as [|cmd rest IH]; intros i w; cbn [execute_commands length].
  - exists 0%nat. repeat split; lia.
  - destruct (env_running (env i)) eqn:R; cbn [negb].
    + destruct (IH (S i) (exec_one (env i) cmd w)) as [k [Hk [Ht [Hc Hall]]]].
      destruct (exec_one_counts (env i) cmd w) as [Ht1 Hc1].
      exists (S k). split; [lia|]. split; [congruence|]. split; [lia|].
      intros Hrun. f_equal. apply Hall. intros j Hj.
      replace (S i + j)%nat with (i + S j)%nat by lia. apply Hrun. lia.
    + exists 0%nat. split; [lia|]. split; [reflexivity|]. split; [lia|].
      intros Hrun. specialize (Hrun 0%nat ltac:(lia)). rewrite Nat.add_0_r, R in Hrun.
      discriminate.
Qed.

Lemma execute_commands_stop (env : nat -> cmd_env) (cmds : list str) (i m : nat) (w : worker) :
  (m < length cmds)%nat -> (forall j, (j < m)%nat -> env_running (env (i + j)%nat) = true) ->
  env_running (env (i + m)%nat) = false ->
  (completed_commands (w_stats (execute_commands env i cmds w))
   + failed_commands (w_stats (execute_commands env i cmds w))
   = completed_commands (w_stats w) + failed_commands (w_stats w) + m)%nat.
Proof.
  revert i m w; induction cmds as [|cmd rest IH]; intros i m w Hm Hrun Hstop; cbn [length] in Hm; [lia|].
  cbn [execute_commands]. destruct m as [|m].
  - rewrite Nat.add_0_r in Hstop. rewrite Hstop. cbn. lia.
  - assert (R : env_running (env i) = true) by (rewrite <- (Nat.add_0_r i); apply Hrun; lia).
    rewrite R. cbn [negb].
    rewrite (IH (S i) m (exec_one (env i) cmd w)); [| lia | |].
    + destruct (exec_one_counts (env i) cmd w) as [_ Hc]. lia.
    + intros j Hj. replace (S i + j)%nat with (i + S j)%nat by lia. apply Hrun. lia.
    + replace (S i + m)%nat with (i + S m)%nat by lia. exact Hstop.
Qed.

End WorkerProps.

(** The worker [run] starts from. *)
Definition initial_worker (p : Worker.params) : Worker.worker :=
  {| Worker.w_stats := Worker.init_stats p;
     Worker.w_bm := Buffer.init (Worker.p_output_dir p) (Worker.p_mode p) (Worker.p_ip p);
     Worker.w_fs := fun _ => None |}.

(** The statistics the run reports in [finished_signal], if it emits it. *)
Fixpoint finished_stats (evs : list Worker.event) : option Worker.stats :=
  match evs with
  | [] => None
  | Worker.EvFinished _ _ _ st _ _ _ :: _ => Some st
  | _ :: evs' => finished_stats evs'
  end.

Lemma finished_stats_app (l1 l2 : list Worker.event) :
  finished_stats l1 = None -> finished_stats (l1 ++ l2) = finished_stats l2.
Proof.
  induction l1 as [|e l1 IH]; [reflexivity|]. destruct e; cbn; first [discriminate | exact IH].
Qed.

Lemma loop_progress_progress (env : nat -> Worker.cmd_env) (n : Z) (i : nat) (cmds : list str) :
  Forall (fun e => exists pc m, e = Worker.EvProgress pc m) (Worker.loop_progress env n i cmds).
Proof.
  revert i; induction cmds as [|cmd rest IH]; intros i; cbn; [constructor|].
  destruct (Worker.env_running (env i)); cbn; [|constructor].
  constructor; [eauto | apply IH].
Qed.

Lemma progress_no_finished (evs : list Worker.event) :
  Forall (fun e => exists pc m, e = Worker.EvProgress pc m) evs -> finished_stats evs = None.
Proof. induction 1 as [|e evs [pc [m ->]] _ IH]; [reflexivity | exact IH]. Qed.

Lemma valid_protocol (p : Worker.params) :
  valid (validate_connection_params (Worker.p_protocol p) (Worker.p_ip p) (Worker.p_port p)
           (Worker.p_username p) (Worker.p_password p)) = true ->
  protocol_ok (Worker.p_protocol p) = true.
Proof.
  unfold validate_connection_params, protocol_ok. cbn [valid].
  destruct (str_eqb (Worker.p_protocol p) (s "ssh") || str_eqb (Worker.p_protocol p) (s "telnet"));
    [reflexivity|]. cbn [negb].
  destruct (is_empty (Worker.p_ip p)); [|destruct (negb (re_match ipv4_pattern (Worker.p_ip p)))];
    destruct ((Worker.p_port p <? 1) || (Worker.p_port p >? 65535)),
      (is_empty (Worker.p_username p)), (is_empty (Worker.p_password p)); cbn; discriminate.
Qed.

Lemma run_session_cases (p : Worker.params) (env : Worker.run_env) (w : Worker.worker) :
  protocol_ok (Worker.p_protocol p) = true ->
  let '(evs, w') := Worker.run_session p env w in
  finished_stats evs = None
  /\ (Worker.connect_ok env = true -> w' = Worker.execute_commands (Worker.cmd_envs env) 0 (Worker.p_commands p) w)
  /\ (Worker.connect_ok env = false -> w' = w).
Proof.
  unfold protocol_ok, Worker.run_session. intros Hp. rewrite Hp. cbn [negb].
  destruct (Worker.connect_ok env); [|destruct (str_eqb (Worker.p_protocol p) (s "ssh"))];
    (split; [|split]); try discriminate; try reflexivity.
  destruct (str_eqb (Worker.p_protocol p) (s "ssh")); cbn [finished_stats app];
    apply progress_no_finished, loop_progress_progress.
Qed.

Lemma run_finished (p : Worker.params) (env : Worker.run_env) (st : Worker.stats) :
  finished_stats (Worker.run p env) = Some st ->
  exists w, st = Worker.w_stats w
  /\ (Worker.connect_ok env = true ->
      w = Worker.execute_commands (Worker.cmd_envs env) 0 (Worker.p_commands p) (initial_worker p))
  /\ (Worker.connect_ok env = false -> w = initial_worker p).
Proof.
  unfold Worker.run.
  destruct (valid _) eqn:Hv; cbn [negb]; [|discriminate].
  destruct (Worker.makedirs_error env); [discriminate|].
  change {| Worker.w_stats := Worker.init_stats p; Worker.w_bm := _; Worker.w_fs := _ |}
    with (initial_worker p).
  assert (C := run_session_cases p env (initial_worker p) (valid_protocol p Hv)).
  destruct (Worker.run_session p env (initial_worker p)) as [evs w]. destruct C as [Hn [Hc Hnc]].
  destruct (Buffer.finalize _ _ _ _ _ _ _) as [[b fs] fin].
  rewrite finished_stats_app by exact Hn. cbn. intros H; injection H as <-. eauto.
Qed.

Definition good_params : Worker.params :=
  {| Worker.p_protocol := s "ssh"; Worker.p_ip := s "10.0.0.1"; Worker.p_port := 22;
     Worker.p_username := s "admin"; Worker.p_password := s "pw";
     Worker.p_commands := [s "show version"]; Worker.p_mode := s "before";
     Worker.p_output_dir := s "out" |}.

(** C1 (counterexample): the stop signal set before the first command ends
    the run with [completed + failed = 0] for one command. *)
Lemma stopped_run_counts_fewer :
  finished_stats (Worker.run good_params (sample_run_env true (fun _ => worker_env false)))
    = Some {| Worker.total_commands := 1; Worker.completed_commands := 0;
              Worker.failed_commands := 0 |}.
Proof. vm_compute. reflexivity. Qed.

(** C1 (amended): in the statistics a run reports, [completed + failed] never
    exceeds [total_commands] (the length of the command list), and equals it
    when the connection succeeded and the stop signal was not observed before
    any command.  When the stop is first observed before command [i] (the
    connection having succeeded), [completed + failed] is exactly [i]: the
    commands from [i] on are counted in neither; after a failed connection
    it is 0. *)
Theorem run_counts_le_total (p : Worker.params) (env : Worker.run_env) (st : Worker.stats) :
  finished_stats (Worker.run p env) = Some st ->
  (Worker.completed_commands st + Worker.failed_commands st <= Worker.total_commands st)%nat
  /\ Worker.total_commands st = length (Worker.p_commands p)
  /\ (Worker.connect_ok env = true ->
      (forall j, (j < length (Worker.p_commands p))%nat ->
         Worker.env_running (Worker.cmd_envs env j) = true) ->
      (Worker.completed_commands st + Worker.failed_commands st = Worker.total_commands st)%nat)
  /\ (Worker.connect_ok env = true ->
      forall i, (i < length (Worker.p_commands p))%nat ->
      (forall j, (j < i)%nat -> Worker.env_running (Worker.cmd_envs env j) = true) ->
      Worker.env_running (Worker.cmd_envs env i) = false ->
      (Worker.completed_commands st + Worker.failed_commands st = i)%nat)
  /\ (Worker.connect_ok env = false ->
      (Worker.completed_commands st + Worker.failed_commands st = 0)%nat).
Proof.
  intros Hfin. destruct (run_finished p env st Hfin) as [w [-> [Hc Hnc]]].
  destruct (execute_commands_counts (Worker.cmd_envs env) (Worker.p_commands p) 0 (initial_worker p))
    as [k [Hk [Ht [Hcnt Hall]]]].
  destruct (Worker.connect_ok env) eqn:C.
  - rewrite (Hc eq_refl). cbn in Ht, Hcnt. rewrite Ht.
    split; [lia|]. split; [reflexivity|]. split.
    + intros _ Hrun. rewrite (Hall Hrun) in Hcnt. lia.
    + split; [|discriminate]. intros _ i Hi Hpre Hstop.
      rewrite (execute_commands_stop _ _ 0 i (initial_worker p) Hi Hpre Hstop). cbn. lia.
  - rewrite (Hnc eq_refl). cbn. repeat split; intros; first [lia | discriminate].
Qed.

Lemma run_counts_le_total_witness :
  (Worker.completed_commands
     {| Worker.total_commands := 1; Worker.completed_commands := 1; Worker.failed_commands := 0 |}
   + Worker.failed_commands
     {| Worker.total_commands := 1; Worker.completed_commands := 1; Worker.failed_commands := 0 |}
   = Worker.total_commands
     {| Worker.total_commands := 1; Worker.completed_commands := 1; Worker.failed_commands := 0 |})%nat.
Proof.
  apply (proj1 (proj2 (proj2 (run_counts_le_total good_params (sample_run_env true (fun _ => worker_env true))
     {| Worker.total_commands := 1; Worker.completed_commands := 1; Worker.failed_commands := 0 |}
     ltac:(vm_compute; reflexivity))))).
  - reflexivity.
  - intros j Hj. reflexivity.
Defined.

(** C4 (amended): for a command that passed the [is_running] check, the
    count that changes is exactly one: a raised exception adds one to
    [failed_commands] and offers an error block starting with the command
    line to [add_data] (it is then the last buffered block unless the cap
    rejected it); a returned result, whatever its success flag (which only
    shapes the block), adds one to [completed_commands] when [add_data]
    accepts its block and one to [failed_commands] when the cap rejects it;
    whatever the outcome, the loop goes on with the next command. *)
Theorem exec_one_outcome (env : nat -> Worker.cmd_env) (i : nat) (cmd : str)
    (rest : list str) (w : Worker.worker) :
  let e := env i in
  let w' := Worker.exec_one e cmd w in
  let bm_add blk := Buffer.add_data utf8_len (Worker.w_bm w) blk (Worker.env_ts e)
                      (Worker.env_io_ok e) (Worker.w_fs w) in
  (forall msg, Worker.env_exec e = Worker.Raised msg ->
     let blk := format_command_output cmd (Some (Worker.error_prefix ++ msg)) false in
     Worker.failed_commands (Worker.w_stats w') = S (Worker.failed_commands (Worker.w_stats w))
     /\ Worker.completed_commands (Worker.w_stats w')
        = Worker.completed_commands (Worker.w_stats w)
     /\ (exists tl, blk = strip cmd ++ [LF] ++ tl)
     /\ Worker.w_bm w' = fst (fst (bm_add blk))
     /\ (snd (bm_add blk) = true ->
         exists pre, Buffer.output_buffer (Worker.w_bm w') = pre ++ [blk]))
  /\ (forall succ out, Worker.env_exec e = Worker.Returned succ out ->
     let blk := format_command_output cmd (Some out) succ in
     Worker.w_bm w' = fst (fst (bm_add blk))
     /\ (snd (bm_add blk) = true ->
         Worker.completed_commands (Worker.w_stats w')
           = S (Worker.completed_commands (Worker.w_stats w))
         /\ Worker.failed_commands (Worker.w_stats w') = Worker.failed_commands (Worker.w_stats w))
     /\ (snd (bm_add blk) = false ->
         Worker.failed_commands (Worker.w_stats w') = S (Worker.failed_commands (Worker.w_stats w))
         /\ Worker.completed_commands (Worker.w_stats w')
            = Worker.completed_commands (Worker.w_stats w)))
  /\ (Worker.env_running e = true ->
      Worker.execute_commands env i (cmd :: rest) w
        = Worker.execute_commands env (S i) rest w').
Proof.
  intros e w' bm_add. split; [|split].
  - intros msg Hx blk. subst w'. unfold Worker.exec_one. rewrite Hx. fold blk.
    assert (Happ := add_data_appends (Worker.w_bm w) blk (Worker.env_ts e) (Worker.env_io_ok e)
                      (Worker.w_fs w)).
    fold (bm_add blk) in Happ |- *.
    destruct (bm_add blk) as [[b' fs'] acc]; cbn.
    split; [reflexivity|]. split; [reflexivity|].
    split; [eexists; apply format_command_output_eq|].
    split; [reflexivity|]. exact Happ.
  - intros succ out Hx blk. subst w'. unfold Worker.exec_one. rewrite Hx. fold blk.
    fold (bm_add blk).
    destruct (bm_add blk) as [[b' fs'] [|]]; cbn; repeat split; discriminate.
  - intros R. cbn [Worker.execute_commands]. fold e. rewrite R. reflexivity.
Qed.

Definition raising_env (i : nat) : Worker.cmd_env :=
  {| Worker.env_running := true; Worker.env_exec := Worker.Raised (s "timed out");
     Worker.env_ts := ts1; Worker.env_io_ok := Buffer.IoOk |}.

Definition start_worker : Worker.worker :=
  {| Worker.w_stats := Worker.init_stats good_params; Worker.w_bm := fresh_manager;
     Worker.w_fs := fun _ => None |}.

Lemma exec_one_outcome_witness :
  Worker.failed_commands (Worker.w_stats (Worker.exec_one (raising_env 0) (s "show version")
                                            start_worker)) = 1%nat
  /\ Worker.execute_commands raising_env 0 [s "show version"; s "show clock"] start_worker
     = Worker.execute_commands raising_env 1 [s "show clock"]
         (Worker.exec_one (raising_env 0) (s "show version") start_worker).
Proof.
  destruct (exec_one_outcome raising_env 0 (s "show version") [s "show clock"] start_worker)
    as [H1 [_ H3]].
  split.
  - exact (proj1 (H1 (s "timed out") eq_refl)).
  - exact (H3 eq_refl).
Defined.

(** C4 (counterexample): a command that succeeds when the 50MB cap is
    already reached counts as failed, not completed. *)
Lemma success_past_cap_counts_failed :
  let w := {| Worker.w_stats := Worker.init_stats good_params; Worker.w_bm := full_manager;
              Worker.w_fs := fun _ => None |} in
  let w' := Worker.exec_one (worker_env true) (s "show version") w in
  Worker.completed_commands (Worker.w_stats w') = 0%nat
  /\ Worker.failed_commands (Worker.w_stats w') = 1%nat.
Proof. vm_compute. split; reflexivity. Qed.

(** ** Command files *)

Lemma lstrip_chars (x : str) (c : Z) : In c (lstrip x) -> In c x.
Proof. induction x as [|a x IH]; simpl; [tauto|]. destruct (is_space a); simpl; tauto. Qed.

Lemma strip_chars (x : str) (c : Z) : In c (strip x) -> In c x.
Proof. unfold strip. rewrite <- in_rev. intros H. apply lstrip_chars, in_rev, lstrip_chars in H. exact H. Qed.

Lemma lstrip_head (x : str) : lstrip x = [] \/ exists c r, lstrip x = c :: r /\ is_space c = false.
Proof.
  induction x as [|a x IH]; simpl; [auto|].
  destruct (is_space a) eqn:E; [exact IH|]. right; eauto.
Qed.

Lemma lstrip_nonspace (c : Z) (r : str) : is_space c = false -> lstrip (c :: r) = c :: r.
Proof. simpl; intros ->; reflexivity. Qed.

Lemma lstrip_idem (x : str) : lstrip (lstrip x) = lstrip x.
Proof. destruct (lstrip_head x) as [->|[c [r [-> H]]]]; [reflexivity|]. apply lstrip_nonspace, H. Qed.

Lemma lstrip_app (y z : str) :
  lstrip (y ++ z) = match lstrip y with [] => lstrip z | l => l ++ z end.
Proof.
  induction y as [|a y IH]; simpl; [reflexivity|].
  destruct (is_space a); [exact IH | reflexivity].
Qed.

Lemma lstrip_split (x : str) : exists w, x = w ++ lstrip x.
Proof.
  induction x as [|a x [w Hw]]; simpl; [exists []; reflexivity|].
  destruct (is_space a); [exists (a :: w); simpl; congruence | exists []; reflexivity].
Qed.

(** [strip] is idempotent. *)
Lemma strip_idem (x : str) : strip (strip x) = strip x.
Proof.
  unfold strip at 2. set (y := lstrip x). set (z := lstrip (rev y)).
  assert (Hz : lstrip z = z) by apply lstrip_idem.
  assert (Hy : lstrip y = y) by apply lstrip_idem.
  destruct (lstrip_split (rev y)) as [w Hw]. fold z in Hw.
  assert (Ey : y = rev z ++ rev w) by (rewrite <- rev_app_distr, <- Hw, rev_involutive; reflexivity).
  assert (Hrz : lstrip (rev z) = rev z).
  { destruct (rev z) as [|c r] eqn:Erz; [reflexivity|].
    rewrite Ey in Hy. cbn [app] in Hy. simpl in Hy.
    destruct (is_space c) eqn:Ec; [|apply lstrip_nonspace, Ec].
    exfalso. destruct (lstrip_split (r ++ rev w)) as [w' Hw'].
    assert (L := f_equal (@length Z) Hw'). rewrite Hy in L. simpl in L. rewrite !length_app in L. simpl in L. rewrite length_app in L. lia. }
  unfold strip. rewrite Hrz, rev_involutive, Hz. reflexivity.
Qed.

Lemma strip_app_lf (y : str) : strip (y ++ [LF]) = strip y.
Proof.
  unfold strip. rewrite lstrip_app.
  destruct (lstrip y) as [|a l] eqn:E; [reflexivity|].
  rewrite rev_app_distr. reflexivity.
Qed.

Lemma file_lines_go_shape (x cur : str) (l : str) :
  ~ In LF cur -> In l (file_lines_go cur x) ->
  exists y, (l = y \/ l = y ++ [LF]) /\ ~ In LF y /\ (forall c, In c y -> In c cur \/ In c x).
Proof.
  revert cur; induction x as [|a x IH]; intros cur Hcur; simpl.
  - destruct cur as [|z cur']; [intros []|]. intros [<-|[]].
    exists (rev (z :: cur')). split; [auto|]. split.
    + rewrite <- in_rev. exact Hcur.
    + intros c Hc; rewrite <- in_rev in Hc; auto.
  - destruct (a =? LF) eqn:Ea.
    + intros [<-|Hl].
      * exists (rev cur). split; [right; reflexivity|]. split.
        -- rewrite <- in_rev; exact Hcur.
        -- intros c Hc; rewrite <- in_rev in Hc; auto.
      * destruct (IH [] (fun H => H) Hl) as [y [Hy1 [Hy2 Hy3]]].
        exists y. split; [exact Hy1|]. split; [exact Hy2|].
        intros c Hc. destruct (Hy3 c Hc) as [[]|]; auto.
    + intros Hl. assert (Hcur' : ~ In LF (a :: cur)).
      { simpl. intros [H|H]; [subst; rewrite Z.eqb_refl in Ea; discriminate | auto]. }
      destruct (IH _ Hcur' Hl) as [y [Hy1 [Hy2 Hy3]]].
      exists y. split; [exact Hy1|]. split; [exact Hy2|].
      intros c Hc. destruct (Hy3 c Hc) as [[->|]|]; simpl; auto.
Qed.

(** A command line as [parse_command_file] returns it. *)
Definition command_line_ok (c : str) : Prop :=
  c <> [] /\ strip c = c /\ ~ In CR c /\ ~ In LF c /\ starts_with_hash c = false.

(** X1: a missing or undecodable command file gives no commands; every
    command read from a file is non-empty, has no surrounding whitespace, no
    CR or LF, and does not start with [#]. *)
Theorem parse_command_file_lines (file : option str) :
  parse_command_file None = []
  /\ (forall c, In c (parse_command_file file) -> command_line_ok c).
Proof.
  split; [reflexivity|]. intros c.
  destruct file as [raw|]; [|intros []]. unfold parse_command_file.
  rewrite filter_In, in_map_iff, andb_true_iff, !negb_true_iff.
  intros [[l [<- Hl]] [He Hh]].
  destruct (file_lines_go_shape _ [] l (fun H => H) Hl) as [y [Hy1 [Hy2 Hy3]]].
  assert (Hs : strip l = strip y) by (destruct Hy1 as [-> | ->]; [reflexivity | apply strip_app_lf]).
  unfold command_line_ok. rewrite Hs in *.
  split; [destruct (strip y); [discriminate | congruence]|].
  split; [apply strip_idem|]. split; [|split; [|exact Hh]].
  - intros Hc. apply strip_chars in Hc. destruct (Hy3 _ Hc) as [[]|Hc'].
    exact (replace_cr_no_cr _ Hc').
  - intros Hc. apply strip_chars in Hc. exact (Hy2 Hc).
Qed.

Lemma replace_crlf_no_cr_app (x y : str) : ~ In CR x -> replace_crlf (x ++ y) = x ++ replace_crlf y.
Proof.
  induction x as [|a x IH]; intros H; [reflexivity|]. simpl.
  destruct (a =? CR) eqn:E; [apply Z.eqb_eq in E; subst; exfalso; apply H; left; reflexivity|].
  rewrite IH by (intros H'; apply H; right; exact H'). reflexivity.
Qed.

Lemma replace_cr_no_cr_id (x : str) : ~ In CR x -> replace_cr x = x.
Proof.
  induction x as [|a x IH]; intros H; [reflexivity|]. unfold replace_cr in *. simpl.
  destruct (a =? CR) eqn:E; [apply Z.eqb_eq in E; subst; exfalso; apply H; left; reflexivity|].
  rewrite IH by (intros H'; apply H; right; exact H'). reflexivity.
Qed.

Lemma read_text_line (sep c rest : str) :
  In sep [[LF]; [CR; LF]] -> ~ In CR c ->
  read_text (c ++ sep ++ rest) = c ++ LF :: read_text rest.
Proof.
  intros Hsep Hc. unfold read_text. rewrite replace_crlf_no_cr_app by exact Hc.
  unfold replace_cr at 1. rewrite map_app. fold (replace_cr c). rewrite replace_cr_no_cr_id by exact Hc.
  f_equal. destruct Hsep as [<-|[<-|[]]]; reflexivity.
Qed.

Lemma read_text_no_cr (c : str) : ~ In CR c -> read_text c = c.
Proof.
  intros Hc. assert (H := replace_crlf_no_cr_app c [] Hc). cbn [replace_crlf] in H.
  rewrite !app_nil_r in H. unfold read_text. rewrite H. apply replace_cr_no_cr_id, Hc.
Qed.

Lemma file_lines_go_line (cur c rest : str) :
  ~ In LF c -> file_lines_go cur (c ++ LF :: rest) = (rev cur ++ c ++ [LF]) :: file_lines_go [] rest.
Proof.
  revert cur; induction c as [|a c IH]; intros cur Hc; simpl.
  - reflexivity.
  - destruct (a =? LF) eqn:E; [apply Z.eqb_eq in E; subst; exfalso; apply Hc; left; reflexivity|].
    rewrite IH by (intros H; apply Hc; right; exact H). simpl. rewrite <- app_assoc. reflexivity.
Qed.

Lemma file_lines_go_last (cur c : str) :
  ~ In LF c -> file_lines_go cur c = match rev cur ++ c with [] => [] | l => [l] end.
Proof.
  revert cur; induction c as [|a c IH]; intros cur Hc; simpl.
  - rewrite app_nil_r. destruct cur as [|z cur']; [reflexivity|].
    destruct (rev (z :: cur')) eqn:E; [apply (f_equal (@length Z)) in E; simpl in E; rewrite length_app in E; simpl in E; lia | reflexivity].
  - destruct (a =? LF) eqn:E; [apply Z.eqb_eq in E; subst; exfalso; apply Hc; left; reflexivity|].
    rewrite IH by (intros H; apply Hc; right; exact H). simpl. rewrite <- app_assoc. simpl.
    destruct (rev cur ++ a :: c) eqn:E2; [destruct (rev cur); discriminate | reflexivity].
Qed.

Lemma parse_lines_join (sep e : str) (cs : list str) (c : str) :
  In sep [[LF]; [CR; LF]] -> In e [[]; sep] -> Forall command_line_ok (c :: cs) ->
  map strip (file_lines (read_text (join sep (c :: cs) ++ e))) = c :: cs.
Proof.
  intros Hsep He. revert c; induction cs as [|c' cs IH]; intros c Hok;
    inversion Hok as [|? ? [Hne [Hs [Hcr [Hlf _]]]] Hok']; subst.
  - simpl. destruct He as [<-|[<-|[]]].
    + rewrite app_nil_r, read_text_no_cr by exact Hcr. unfold file_lines.
      rewrite file_lines_go_last by exact Hlf. simpl.
      destruct c; [contradiction | simpl; rewrite Hs; reflexivity].
    + rewrite <- (app_nil_r sep), read_text_line by assumption. unfold file_lines.
      rewrite file_lines_go_line by exact Hlf. simpl. rewrite strip_app_lf, Hs. reflexivity.
  - change (join sep (c :: c' :: cs)) with (c ++ sep ++ join sep (c' :: cs)).
    rewrite <- !app_assoc, read_text_line by assumption. unfold file_lines.
    rewrite file_lines_go_line by exact Hlf. cbn [map rev app].
    rewrite strip_app_lf, Hs. f_equal. apply IH. exact Hok'.
Qed.

(** X2: commands written one per line, with Unix or Windows line ends and
    with or without a final line end, are read back exactly, in order, by
    [parse_command_file], as long as each is a line it could return. *)
Theorem parse_command_file_join (sep e : str) (cmds : list str) :
  In sep [[LF]; [CR; LF]] -> In e [[]; sep] -> Forall command_line_ok cmds ->
  parse_command_file (Some (join sep cmds ++ e)) = cmds.
Proof.
  intros Hsep He Hok. destruct cmds as [|c cs].
  - destruct He as [<-|[<-|[]]]; [reflexivity|]. destruct Hsep as [<-|[<-|[]]]; reflexivity.
  - unfold parse_command_file. rewrite parse_lines_join by assumption.
    apply forallb_filter_id. apply forallb_forall. intros l Hl.
    rewrite Forall_forall in Hok. destruct (Hok l Hl) as [Hne [_ [_ [_ Hh]]]].
    rewrite Hh. destruct l; [contradiction | reflexivity].
Qed.

Lemma parse_command_file_join_witness :
  parse_command_file (Some (join [CR; LF] [s "display version"; s "display interface brief"] ++ [CR; LF]))
    = [s "display version"; s "display interface brief"].
Proof.
  apply parse_command_file_join; [right; left; reflexivity | right; left; reflexivity |].
  repeat constructor; unfold command_line_ok; repeat split;
    first [discriminate | vm_compute; reflexivity | vm_compute; intuition discriminate].
Defined.

(** ** Large-output commands and the unused prompt check *)

Lemma prefixb_app (p y post : str) : prefixb p y = true -> prefixb p (y ++ post) = true.
Proof.
  revert y; induction p as [|a p IH]; intros [|b y]; simpl; try easy.
  rewrite !andb_true_iff. intros [H1 H2]. split; [exact H1 | apply IH, H2].
Qed.

Lemma contains_app (pre y post p : str) : contains y p = true -> contains (pre ++ y ++ post) p = true.
Proof.
  intros H. induction pre as [|a pre IH]; simpl.
  - induction y as [|b y IHy]; simpl in *.
    + destruct p; [destruct post; reflexivity | discriminate].
    + apply orb_true_iff in H as [H|H].
      * change (b :: y ++ post) with ((b :: y) ++ post). rewrite (prefixb_app _ (b :: y) post H). reflexivity.
      * rewrite IHy by exact H. apply orb_true_r.
  - rewrite IH. apply orb_true_r.
Qed.

Definition is_ascii (x : str) : Prop := Forall (fun c => 0 <= c < 128) x.

Ltac zleb_cases :=
  repeat (match goal with |- context [?a <=? ?b] => destruct (Z.leb_spec a b) end; simpl in * );
  try lia.

Lemma ascii_lower_upper (c : Z) : ascii_lower (ascii_upper c) = ascii_lower c.
Proof.
  unfold ascii_lower, ascii_upper.
  destruct ((97 <=? c) && (c <=? 122)) eqn:E1.
  - apply andb_true_iff in E1 as [E1 E2]. apply Z.leb_le in E1, E2.
    destruct ((65 <=? c - 32) && (c - 32 <=? 90)) eqn:E3.
    + destruct ((65 <=? c) && (c <=? 90)) eqn:E4; [apply andb_true_iff in E4 as [E4 E5]; apply Z.leb_le in E4, E5; lia | lia].
    + apply andb_false_iff in E3 as [E3|E3]; apply Z.leb_gt in E3; lia.
  - reflexivity.
Qed.

Lemma ascii_upper_range (c : Z) : 0 <= c < 128 -> 0 <= ascii_upper c < 128.
Proof.
  unfold ascii_upper. destruct ((97 <=? c) && (c <=? 122)) eqn:E; [|auto].
  apply andb_true_iff in E as [E1 E2]. apply Z.leb_le in E1, E2. lia.
Qed.

(** X3: for ASCII commands (where [str.lower] is the ASCII mapping), whether
    a command counts as large-output does not depend on letter case, and a
    command that contains one of the patterns in any letter case, also
    inside a longer line such as a pipe, is large and gets twice the base
    timeout from [calculate_timeout]. *)
Theorem large_output_command_ascii (lower : str -> str) :
  (forall x, is_ascii x -> lower x = bytes_lower x) ->
  (forall cmd, is_ascii cmd ->
     is_large_output_command lower (map ascii_upper cmd) = is_large_output_command lower cmd
     /\ is_large_output_command lower (bytes_lower cmd) = is_large_output_command lower cmd)
  /\ (forall pre cmd post pattern base, is_ascii (pre ++ cmd ++ post) ->
        In pattern large_patterns -> contains (bytes_lower cmd) pattern = true ->
        is_large_output_command lower (pre ++ cmd ++ post) = true
        /\ calculate_timeout lower (pre ++ cmd ++ post) base = base * 2).
Proof.
  intros Hlow. split.
  - intros cmd Hc. unfold is_ascii in Hc.
    assert (Hu : is_ascii (map ascii_upper cmd)).
    { apply Forall_map. eapply Forall_impl; [|exact Hc]. apply ascii_upper_range. }
    assert (Hl : is_ascii (bytes_lower cmd)).
    { apply Forall_map. eapply Forall_impl; [|exact Hc]. intros c Hr. unfold ascii_lower.
      destruct ((65 <=? c) && (c <=? 90)) eqn:E; [apply andb_true_iff in E as [E1 E2]; apply Z.leb_le in E1, E2; lia | exact Hr]. }
    unfold is_large_output_command. rewrite (Hlow _ Hu), (Hlow _ Hl), (Hlow _ Hc).
    unfold bytes_lower. rewrite !map_map.
    rewrite (map_ext _ _ ascii_lower_upper).
    assert (Hll : forall c, ascii_lower (ascii_lower c) = ascii_lower c).
    { intros c. unfold ascii_lower. zleb_cases. }
    rewrite (map_ext _ _ Hll). split; reflexivity.
  - intros pre cmd post pattern base Ha Hin Hc.
    assert (Hl : is_large_output_command lower (pre ++ cmd ++ post) = true).
    { unfold is_large_output_command. rewrite (Hlow _ Ha). apply existsb_exists.
      exists pattern. split; [exact Hin|]. unfold bytes_lower. rewrite !map_app.
      apply contains_app, Hc. }
    split; [exact Hl|]. unfold calculate_timeout. rewrite Hl. reflexivity.
Qed.

Lemma large_output_command_ascii_witness :
  calculate_timeout bytes_lower (s "SHOW Running-Config | include hostname") 300 = 600.
Proof.
  refine (proj2 (proj2 (large_output_command_ascii bytes_lower (fun x _ => eq_refl))
                  [] (s "SHOW Running-Config") (s " | include hostname") (s "show running-config") 300
                  _ _ _)).
  - vm_compute. repeat constructor; discriminate.
  - simpl; tauto.
  - reflexivity.
Defined.

Lemma split_go_chars (sep : Z) (x cur l : str) (c : Z) :
  In l (split_go sep cur x) -> In c l -> (In c cur \/ In c x) /\ (In c cur \/ c <> sep).
Proof.
  revert cur; induction x as [|a x IH]; intros cur; simpl.
  - intros [<-|[]] H. rewrite <- in_rev in H. tauto.
  - destruct (a =? sep) eqn:E.
    + intros [<-|H1] H2; [rewrite <- in_rev in H2; tauto|].
      destruct (IH [] H1 H2) as [[[]|H3] [[]|H4]]. tauto.
    + intros H1 H2. destruct (IH _ H1 H2) as [Ha Hb]. simpl in Ha, Hb. split; [tauto|].
      destruct Hb as [[<-|Hb]|Hb]; [|tauto|tauto].
      right; intros Heq; subst. rewrite Z.eqb_refl in E; discriminate.
Qed.

Lemma search_first_class (f : Z -> bool) (ps : list piece) (x : str) :
  search (P_one f :: ps) x = true -> exists c, In c x /\ f c = true.
Proof.
  induction x as [|a x IH]; simpl; [discriminate|].
  rewrite orb_true_iff, andb_true_iff. intros [[Ha _]|H]; [exists a; auto|].
  destruct (IH H) as [c [Hc Hf]]. exists c; auto.
Qed.

Lemma in_skipn_sub {A} (n : nat) (l : list A) (a : A) : In a (skipn n l) -> In a l.
Proof. intros H. rewrite <- (firstn_skipn n l). apply in_or_app. right; exact H. Qed.

(** X4: [has_command_prompt] finds no prompt in any output that contains no
    CR: every pattern starts with [[\r\n]], the output is split at LF and
    each line is stripped, so at least one CR must sit inside a line.  The
    output both readers hand back after normalisation (LF line ends only)
    never passes it. *)
Theorem has_command_prompt_needs_cr (is_word : Z -> bool) (output : str) :
  ~ In CR output -> has_command_prompt is_word output = false.
Proof.
  intros Hcr. unfold has_command_prompt. apply not_true_iff_false. intros H.
  apply existsb_exists in H as [line [Hline H]].
  assert (Hl : In line (split_char LF output)).
  { destruct (5 <? length (split_char LF output))%nat; [eapply in_skipn_sub; exact Hline | exact Hline]. }
  apply existsb_exists in H as [pattern [Hp Hs]].
  assert (Hfirst : exists ps, pattern = P_one (in_list [CR; LF]) :: ps).
  { unfold command_prompt_patterns in Hp. simpl in Hp.
    destruct Hp as [<-|[<-|[<-|[<-|[<-|[<-|[<-|[]]]]]]]]; eexists; reflexivity. }
  destruct Hfirst as [ps ->]. destruct (search_first_class _ _ _ Hs) as [c [Hc Hf]].
  apply strip_chars in Hc. destruct (split_go_chars _ _ _ _ _ Hl Hc) as [[[]|Ho] [[]|Hne]].
  unfold in_list in Hf. simpl in Hf. rewrite orb_false_r, orb_true_iff, !Z.eqb_eq in Hf.
  destruct Hf as [->| ->]; [exact (Hcr Ho) | exact (Hne eq_refl)].
Qed.

Lemma has_command_prompt_needs_cr_witness :
  has_command_prompt bytes_word (s "display version" ++ [LF] ++ s "V200R010" ++ [LF] ++ s "<R1>") = false.
Proof. apply has_command_prompt_needs_cr. vm_compute. intuition discriminate. Defined.

(** ** Telnet login *)

(** The bytes the reads return, in order. *)
Fixpoint chunks (reads : list read_result) : str :=
  match reads with
  | [] => []
  | RChunk c :: rs => c ++ chunks rs
  | _ :: rs => chunks rs
  end.

Lemma wait_go_in (patterns : list str) (data : str) (reads : list read_result) (p : str) :
  wait_go patterns data reads = Some p -> In p patterns.
Proof.
  revert data; induction reads as [|r rs IH]; intros data; simpl; [discriminate|].
  destruct r as [[|a c]| |]; try (apply IH); [|discriminate].
  destruct (find _ _) eqn:E.
  - intros H; injection H as <-. apply find_some in E. tauto.
  - apply IH.
Qed.

Lemma contains_nil_r (x : str) : contains x [] = true.
Proof. destruct x; reflexivity. Qed.

Lemma contains_nil (p : str) : p <> [] -> contains [] p = false.
Proof. destruct p; [contradiction | reflexivity]. Qed.

Lemma wait_go_found (patterns : list str) (data : str) (reads : list read_result) :
  ~ In RFatal reads -> chunks reads <> [] ->
  (exists p, In p patterns /\ contains (data ++ chunks reads) p = true) ->
  wait_go patterns data reads <> None.
Proof.
  revert data; induction reads as [|r rs IH]; intros data Hf Hc Hp; simpl in *; [contradiction|].
  destruct r as [[|a c]| |].
  - apply IH; auto.
  - destruct (find (fun pattern => contains (data ++ a :: c) pattern) patterns) eqn:E;
      [discriminate|].
    destruct (list_eq_dec Z.eq_dec (chunks rs) []) as [Hn|Hn].
    + exfalso. destruct Hp as [p [Hin Hp]]. rewrite Hn, app_nil_r in Hp.
      pose proof (find_none _ _ E p Hin) as Hp'. cbv beta in Hp'. congruence.
    + apply IH; auto. destruct Hp as [p [Hin Hp]]. exists p. split; [exact Hin|].
      rewrite <- app_assoc. exact Hp.
  - apply IH; auto.
  - exfalso; apply Hf; left; reflexivity.
Qed.

(** X5: [_wait_for_patterns] only ever returns one of the patterns it was
    given; and when no read fails fatally, a pattern that turns up in the
    received bytes before the timeout is found even when it is split across
    several reads. *)
Theorem wait_for_patterns_split (patterns : list str) (reads : list read_result) :
  (forall p, wait_for_patterns patterns reads = Some p -> In p patterns)
  /\ (~ In RFatal reads -> forall p, In p patterns -> p <> [] ->
      contains (chunks reads) p = true -> wait_for_patterns patterns reads <> None).
Proof.
  split; [intros p; apply wait_go_in|].
  intros Hf p Hin Hne Hc. apply wait_go_found; [exact Hf| |exists p; auto].
  intros E. rewrite E, contains_nil in Hc by exact Hne. discriminate.
Qed.

Lemma wait_for_patterns_split_witness :
  wait_for_patterns login_patterns [RChunk (s "Welcome" ++ [CR; LF] ++ s "Userna"); RTimeout;
                                    RChunk (s "me: ")] <> None.
Proof.
  apply (proj2 (wait_for_patterns_split login_patterns _)) with (p := s "Username:").
  - simpl. intuition discriminate.
  - simpl. tauto.
  - discriminate.
  - reflexivity.
Defined.

(** A read that brings nothing: a timeout, or no bytes. *)
Definition quiet (r : read_result) : Prop := r = RTimeout \/ r = RChunk [].

Lemma verify_go_quiet (pre rest : list read_result) :
  Forall quiet pre -> verify_go [] (pre ++ rest) = verify_go [] rest.
Proof.
  induction 1 as [|r pre [-> | ->] _ IH]; [reflexivity | exact IH | exact IH].
Qed.

(** X6: during the 15-second loop of [_verify_login], a first chunk that
    contains one of the error words in any letter case fails the login,
    even when the same chunk also holds a prompt character and whatever
    arrives later. *)
Theorem verify_login_error_first (pre post : list read_result) (final : read_result)
    (c e : str) :
  Forall quiet pre -> In e error_patterns -> contains (bytes_lower c) e = true ->
  verify_login (pre ++ RChunk c :: post) final = false.
Proof.
  intros Hq He Hc. unfold verify_login. rewrite verify_go_quiet by exact Hq.
  destruct c as [|a c].
  - exfalso. rewrite contains_nil in Hc; [discriminate|].
    unfold error_patterns in He. simpl in He.
    destruct He as [<-|[<-|[<-|[<-|[<-|[]]]]]]; discriminate.
  - cbn [verify_go app].
    replace (existsb _ error_patterns) with true; [reflexivity|].
    symmetry. apply existsb_exists. exists e. split; assumption.
Qed.

Lemma verify_login_error_first_witness :
  verify_login [RTimeout; RChunk (s "Login Incorrect" ++ [CR; LF] ++ s "R1#")] (RChunk (s "R1#")) = false.
Proof.
  apply (verify_login_error_first [RTimeout] [] (RChunk (s "R1#"))
           (s "Login Incorrect" ++ [CR; LF] ++ s "R1#") (s "incorrect")).
  - repeat constructor.
  - simpl; tauto.
  - reflexivity.
Defined.

(** X7: when nothing arrives during the 15-second loop, the login result is
    decided by the final read alone: true exactly when it holds one of [#],
    [$], [>], [%]; the error words are not looked for at that point. *)
Theorem verify_login_final_check (reads : list read_result) (final : read_result) :
  Forall quiet reads ->
  verify_login reads final =
    match final with
    | RChunk c => existsb (fun prompt => contains c prompt) prompt_patterns
    | _ => false
    end.
Proof.
  intros Hq. unfold verify_login. rewrite <- (app_nil_r reads), verify_go_quiet by exact Hq.
  destruct final; reflexivity.
Qed.

Lemma verify_login_final_check_witness :
  verify_login [RTimeout; RChunk []] (RChunk (s "Authentication failed" ++ [CR; LF] ++ s "login:>")) = true.
Proof.
  rewrite (verify_login_final_check [RTimeout; RChunk []]) by (repeat constructor).
  reflexivity.
Defined.

(** ** Prompt detection and the reading tail *)

Definition crlf (c : Z) : bool := (c =? CR) || (c =? LF).

Lemma bytes_splitlines_go_chars (x cur : str) (b : bool) (l : str) (c : Z) :
  In l (bytes_splitlines_go cur b x) -> In c l -> In c cur \/ In c x.
Proof.
  revert cur b; induction x as [|a x IH]; intros cur b; simpl.
  - destruct cur as [|z cur]; [simpl; tauto|]. intros [<-|[]] H2.
    rewrite <- in_rev in H2. tauto.
  - destruct (b && (a =? LF)).
    { intros H1 H2. destruct (IH _ _ H1 H2); tauto. }
    destruct (a =? CR).
    { intros [<-|H1] H2; [rewrite <- in_rev in H2; tauto|].
      destruct (IH _ _ H1 H2) as [[]|]; tauto. }
    destruct (a =? LF).
    { intros [<-|H1] H2; [rewrite <- in_rev in H2; tauto|].
      destruct (IH _ _ H1 H2) as [[]|]; tauto. }
    intros H1 H2. destruct (IH _ _ H1 H2) as [[->|]|]; tauto.
Qed.

Lemma bytes_splitlines_break (x y cur : str) (sk : bool) (brk : Z) :
  (sk = true -> cur = []) -> crlf brk = true ->
  exists pre, bytes_splitlines_go cur sk (x ++ brk :: y) = pre ++ bytes_splitlines_go [] (brk =? CR) y.
Proof.
  unfold crlf. revert cur sk; induction x as [|a x IH]; intros cur sk Hsk Hb; simpl.
  - apply orb_true_iff in Hb as [Hb|Hb]; apply Z.eqb_eq in Hb; subst brk.
    + destruct sk; simpl; exists [rev cur]; reflexivity.
    + destruct sk.
      * rewrite (Hsk eq_refl). exists []; reflexivity.
      * exists [rev cur]; reflexivity.
  - destruct (sk && (a =? LF)).
    { apply IH; [discriminate | exact Hb]. }
    destruct (a =? CR).
    { destruct (IH [] true (fun _ => eq_refl) Hb) as [pre E]. rewrite E.
      exists (rev cur :: pre); reflexivity. }
    destruct (a =? LF).
    { destruct (IH [] false (fun _ => eq_refl) Hb) as [pre E]. rewrite E.
      exists (rev cur :: pre); reflexivity. }
    apply IH; [discriminate | exact Hb].
Qed.

Lemma bytes_splitlines_plain (p w cur : str) (sk : bool) :
  p <> [] -> forallb (fun c => negb (crlf c)) p = true ->
  bytes_splitlines_go cur sk (p ++ w) = bytes_splitlines_go (rev p ++ cur) false w.
Proof.
  unfold crlf. revert cur sk; induction p as [|a p IH]; intros cur sk Hne Hp; [contradiction|].
  simpl in Hp. apply andb_true_iff in Hp as [Ha Hp].
  apply negb_true_iff, orb_false_iff in Ha as [Ha1 Ha2].
  simpl. rewrite Ha1, Ha2, andb_false_r.
  destruct p as [|b p'].
  - reflexivity.
  - rewrite IH by (discriminate || exact Hp). rewrite <- app_assoc. reflexivity.
Qed.

Lemma bytes_splitlines_spaces (w cur : str) :
  cur <> [] -> forallb bytes_space w = true ->
  exists w1 rest, bytes_splitlines_go cur false w = (rev cur ++ w1) :: rest
    /\ forallb bytes_space w1 = true
    /\ (forall l, In l rest -> forallb bytes_space l = true).
Proof.
  revert cur; induction w as [|a w IH]; intros cur Hne Hw; simpl.
  - destruct cur as [|z cur']; [contradiction|]. exists [], []. rewrite app_nil_r.
    split; [reflexivity|]. split; [reflexivity|]. intros _ [].
  - simpl in Hw. apply andb_true_iff in Hw as [Ha Hw].
    assert (Hall : forall b l, In l (bytes_splitlines_go [] b w) -> forallb bytes_space l = true).
    { intros b l Hl. apply forallb_forall. intros c Hc.
      destruct (bytes_splitlines_go_chars _ _ _ _ _ Hl Hc) as [[]|Hc'].
      rewrite forallb_forall in Hw. apply Hw, Hc'. }
    destruct (a =? CR).
    { exists [], (bytes_splitlines_go [] true w). rewrite app_nil_r.
      split; [reflexivity|]. split; [reflexivity|]. apply Hall. }
    destruct (a =? LF).
    { exists [], (bytes_splitlines_go [] false w). rewrite app_nil_r.
      split; [reflexivity|]. split; [reflexivity|]. apply Hall. }
    destruct (IH (a :: cur) ltac:(discriminate) Hw) as [w1 [rest [E [H1 H2]]]].
    exists (a :: w1), rest. rewrite E. simpl. rewrite <- app_assoc.
    split; [reflexivity|]. split; [simpl; rewrite Ha; exact H1 | exact H2].
Qed.

Lemma bytes_lstrip_all_space (x : str) : forallb bytes_space x = true -> bytes_lstrip x = [].
Proof.
  induction x as [|a x IH]; simpl; [reflexivity|].
  rewrite andb_true_iff; intros [-> H]; auto.
Qed.

Lemma bytes_lstrip_spaces_app (w y : str) :
  forallb bytes_space w = true -> bytes_lstrip (w ++ y) = bytes_lstrip y.
Proof.
  induction w as [|a w IH]; simpl; [reflexivity|].
  rewrite andb_true_iff; intros [-> H]; auto.
Qed.

Lemma bytes_strip_prompt (p w1 : str) :
  p <> [] -> bytes_space (hd 0 p) = false -> bytes_space (last p 0) = false ->
  forallb bytes_space w1 = true -> bytes_strip (p ++ w1) = p.
Proof.
  intros Hne Hh Hl Hw. unfold bytes_strip.
  destruct p as [|a p']; [contradiction|]. cbn [hd] in Hh.
  cbn [app bytes_lstrip]. rewrite Hh.
  change (a :: p' ++ w1) with ((a :: p') ++ w1).
  rewrite rev_app_distr, bytes_lstrip_spaces_app by (rewrite forallb_forall in *; intros c Hc; apply Hw, in_rev, Hc).
  destruct (rev (a :: p')) as [|b r] eqn:E.
  - apply (f_equal (@length Z)) in E. simpl in E. rewrite length_app in E. simpl in E. lia.
  - assert (Hb : b = last (a :: p') 0).
    { rewrite <- (rev_involutive (a :: p')), E. simpl. rewrite last_last. reflexivity. }
    cbn [bytes_lstrip]. rewrite <- Hb in Hl. rewrite Hl, <- E, rev_involutive. reflexivity.
Qed.

Lemma matches_lit (p y : str) (ps : list piece) : matches (lit p ++ ps) (p ++ y) = matches ps y.
Proof. induction p as [|a p IH]; [reflexivity|]. simpl. rewrite Z.eqb_refl. exact IH. Qed.

(** X8: when the response to the probe newline ends with a line break, a
    prompt line and trailing whitespace, the prompt is sampled exactly (the
    last stripped non-blank line), and the bytes pattern built from it
    matches every later buffer that ends with that prompt and whitespace,
    whatever comes before. *)
Theorem detect_prompt_sample (x p w : str) (brk : Z) :
  crlf brk = true -> p <> [] -> bytes_space (hd 0 p) = false -> bytes_space (last p 0) = false ->
  forallb (fun c => negb (crlf c)) p = true -> forallb bytes_space w = true ->
  prompt_sample (x ++ brk :: p ++ w) = p
  /\ (forall z w', forallb bytes_space w' = true ->
        search (detected_prompt_pattern (x ++ brk :: p ++ w)) (z ++ p ++ w') = true).
Proof.
  intros Hb Hne Hh Hl Hp Hw.
  assert (Hs : prompt_sample (x ++ brk :: p ++ w) = p).
  { unfold prompt_sample, bytes_splitlines.
    destruct (bytes_splitlines_break x (p ++ w) [] false brk ltac:(discriminate) Hb) as [pre E].
    rewrite E, bytes_splitlines_plain by assumption. rewrite app_nil_r.
    assert (Hr : rev p <> []) by (intros H; apply Hne; rewrite <- (rev_involutive p), H; reflexivity).
    destruct (bytes_splitlines_spaces w (rev p) Hr Hw) as [w1 [rest [E2 [H1 H2]]]].
    rewrite E2, rev_involutive, map_app, filter_app. cbn [map filter].
    rewrite bytes_strip_prompt by assumption.
    replace (filter (fun ln => negb (is_empty ln)) (map bytes_strip rest)) with (@nil str).
    - destruct p; [contradiction|]. cbn [is_empty negb]. try rewrite app_nil_r. apply last_last.
    - clear E2. induction rest as [|l rest IH]; [reflexivity|]. cbn [map filter].
      rewrite <- IH by (intros l' Hl'; apply H2; right; exact Hl').
      unfold bytes_strip. rewrite (bytes_lstrip_all_space l (H2 l (or_introl eq_refl))). reflexivity. }
  split; [exact Hs|]. intros z w' Hw'.
  unfold detected_prompt_pattern. rewrite Hs. destruct p as [|a p']; [contradiction|].
  apply search_app. rewrite matches_lit. rewrite <- (app_nil_r w').
  apply star_all; [exact Hw' | reflexivity].
Qed.

Lemma detect_prompt_sample_witness :
  prompt_sample ([CR; LF] ++ s "Info: probe" ++ [CR; LF] ++ s "<HW-Core1>" ++ [32]) = s "<HW-Core1>".
Proof.
  apply (proj1 (detect_prompt_sample ([CR; LF] ++ s "Info: probe" ++ [CR]) (s "<HW-Core1>") [32] LF
                  eq_refl ltac:(discriminate) eq_refl eq_refl eq_refl eq_refl)).
Defined.

Lemma tail_push_skipn (t d : str) :
  tail_push t d = skipn (length (t ++ d) - tail_keep) (t ++ d).
Proof.
  unfold tail_push. destruct (tail_keep <? length (t ++ d))%nat eqn:E; [reflexivity|].
  apply Nat.ltb_ge in E. replace (length (t ++ d) - tail_keep)%nat with 0%nat by lia. reflexivity.
Qed.

(** X9: the tail the SSH and Telnet reading loops match the prompt against is
    always exactly the last 8192 bytes received (all of them while fewer
    have arrived); so a buffer ending with the detected prompt and
    whitespace is recognised as soon as that ending has arrived, provided
    it fits in 8192 bytes. *)
Theorem tail_is_last_bytes (ds : list str) :
  fold_left tail_push ds [] = skipn (length (concat ds) - tail_keep) (concat ds)
  /\ (forall buf z p w, concat ds = z ++ p ++ w -> (length (p ++ w) <= tail_keep)%nat ->
        p <> [] -> prompt_sample buf = p -> forallb bytes_space w = true ->
        search (detected_prompt_pattern buf) (fold_left tail_push ds []) = true).
Proof.
  assert (Ht : forall ds t, (length t <= tail_keep)%nat ->
            fold_left tail_push ds t = skipn (length (t ++ concat ds) - tail_keep) (t ++ concat ds)).
  { induction ds0 as [|d ds0 IH]; intros t Ht; cbn [fold_left concat].
    - rewrite app_nil_r. replace (length t - tail_keep)%nat with 0%nat by lia. reflexivity.
    - rewrite IH.
      + rewrite tail_push_skipn. set (m := (length (t ++ d) - tail_keep)%nat).
        assert (Hm : (m <= length (t ++ d))%nat) by (subst m; lia).
        assert (Ea : skipn m (t ++ d) ++ concat ds0 = skipn m ((t ++ d) ++ concat ds0)).
        { rewrite (skipn_app m (t ++ d) (concat ds0)). replace (m - length (t ++ d))%nat with 0%nat by lia. reflexivity. }
        rewrite Ea, skipn_skipn, length_skipn, (app_assoc t d). f_equal.
        subst m. rewrite !length_app in *. lia.
      + rewrite tail_push_skipn, length_skipn. lia. }
  assert (H0 : fold_left tail_push ds [] = skipn (length (concat ds) - tail_keep) (concat ds))
    by (apply Ht; cbn; lia).
  split; [exact H0|]. intros buf z p w Hc Hlen Hne Hs Hw. rewrite H0, Hc.
  rewrite skipn_app.
  replace (length (z ++ p ++ w) - tail_keep - length z)%nat with 0%nat
    by (rewrite !length_app in *; lia).
  cbn [skipn]. apply search_app.
  unfold detected_prompt_pattern. rewrite Hs. destruct p as [|a p']; [contradiction|].
  rewrite matches_lit. rewrite <- (app_nil_r w). apply star_all; [exact Hw | reflexivity].
Qed.

Lemma tail_is_last_bytes_witness :
  search (detected_prompt_pattern (s "x" ++ [CR; LF] ++ s "R1#"))
    (fold_left tail_push [s "show clock" ++ [CR; LF] ++ s "10:00"; [CR; LF] ++ s "R1"; s "# "] [])
  = true.
Proof.
  apply (proj2 (tail_is_last_bytes _) _ (s "show clock" ++ [CR; LF] ++ s "10:00" ++ [CR; LF])
           (s "R1#") [32]); first [reflexivity | vm_compute; lia | discriminate].
Defined.

(** ** Line ends in the formatter and the readers *)

Lemma remove_nul_id (x : str) : ~ In NUL x -> remove_nul x = x.
Proof.
  induction x as [|a x IH]; intros H; [reflexivity|]. unfold remove_nul in *. simpl.
  destruct (a =? NUL) eqn:E; [apply Z.eqb_eq in E; subst; exfalso; apply H; left; reflexivity|].
  simpl. rewrite IH by (intros H'; apply H; right; exact H'). reflexivity.
Qed.

Lemma replace_crlf_id (x : str) : ~ In CR x -> replace_crlf x = x.
Proof. intros H. rewrite <- (app_nil_r x) at 1. rewrite replace_crlf_no_cr_app by exact H. apply app_nil_r. Qed.

Lemma normalized_no_cr_nul (o : str) : ~ In CR (normalized o) /\ ~ In NUL (normalized o).
Proof.
  split; [apply replace_cr_no_cr|]. intros H.
  destruct (normalized_chars _ _ H) as [_|E]; [|unfold NUL, LF in E; discriminate].
  unfold normalized in H. apply replace_cr_chars in H as [H|E]; [|unfold NUL, LF in E; discriminate].
  apply replace_crlf_chars in H as [H|E]; [|unfold NUL, LF in E; discriminate].
  unfold remove_nul in H. apply filter_In in H as [_ H]. rewrite Z.eqb_refl in H. discriminate.
Qed.

Lemma normalized_idem (o : str) : normalized (normalized o) = normalized o.
Proof.
  destruct (normalized_no_cr_nul o) as [H1 H2]. unfold normalized at 1.
  rewrite remove_nul_id, replace_crlf_id, replace_cr_no_cr_id; auto.
Qed.

Lemma format_command_output_lines (command o o' : str) (success : bool) :
  splitlines (normalized o) = splitlines (normalized o') ->
  format_command_output command (Some o) success = format_command_output command (Some o') success.
Proof. intros H. rewrite !format_command_output_eq. unfold format_body, output_lines. rewrite H. reflexivity. Qed.

Lemma format_command_output_normalized (command o o' : str) (success : bool) :
  normalized o = normalized o' ->
  format_command_output command (Some o) success = format_command_output command (Some o') success.
Proof. intros H. apply format_command_output_lines. rewrite H. reflexivity. Qed.

(** LF line ends turned into CR LF, or into CR. *)
Definition to_crlf (o : str) : str := flat_map (fun c => if c =? LF then [CR; LF] else [c]) o.
Definition to_cr (o : str) : str := map (fun c => if c =? LF then CR else c) o.

Lemma normalized_to_crlf (o : str) : ~ In CR o -> normalized (to_crlf o) = normalized o.
Proof.
  intros H. unfold normalized. f_equal. induction o as [|a o IH]; [reflexivity|].
  assert (H' : ~ In CR o) by (intros H'; apply H; right; exact H').
  cbn [to_crlf flat_map]. fold (to_crlf o).
  destruct (a =? LF) eqn:E.
  - apply Z.eqb_eq in E. subst a. unfold remove_nul in *. cbn. rewrite IH by exact H'. reflexivity.
  - assert (Ha : a <> CR) by (intros ->; apply H; left; reflexivity).
    unfold remove_nul in *. cbn [app filter]. destruct (negb (a =? NUL)).
    + cbn [replace_crlf]. replace (a =? CR) with false by (symmetry; apply Z.eqb_neq; exact Ha).
      rewrite IH by exact H'. reflexivity.
    + apply IH, H'.
Qed.

Lemma normalized_to_cr (o : str) : ~ In CR o -> normalized (to_cr o) = normalized o.
Proof.
  intros H. unfold normalized.
  assert (E1 : remove_nul (to_cr o) = to_cr (remove_nul o)).
  { unfold remove_nul, to_cr. induction o as [|a o IH]; [reflexivity|]. cbn [map filter].
    destruct (a =? LF) eqn:E.
    - apply Z.eqb_eq in E. subst a. cbn. f_equal. apply IH. intros H'; apply H; right; exact H'.
    - destruct (negb (a =? NUL)); cbn; rewrite ?E; [f_equal|]; apply IH; intros H'; apply H; right; exact H'. }
  assert (H2 : ~ In CR (remove_nul o)) by (intros Hc; apply H, remove_nul_chars, Hc).
  rewrite E1. revert H2. generalize (remove_nul o) as y. intros y Hy.
  assert (E2 : replace_crlf (to_cr y) = to_cr y).
  { induction y as [|a y IH]; [reflexivity|]. unfold to_cr in *. cbn [map replace_crlf].
    assert (Hy' : ~ In CR y) by (intros H'; apply Hy; right; exact H').
    destruct (a =? LF) eqn:E; cbn [Z.eqb].
    - change (CR =? CR) with true. cbn beta iota.
      destruct (map _ y) as [|d y'] eqn:Ey; [reflexivity|].
      assert (Hd : d <> LF).
      { intros ->. assert (Hin : In LF (map (fun c => if c =? LF then CR else c) y)) by (rewrite Ey; left; reflexivity).
        apply in_map_iff in Hin as [c [Hc _]]. destruct (c =? LF) eqn:Ec; [unfold CR, LF in Hc; discriminate|].
        subst c. rewrite Z.eqb_refl in Ec. discriminate. }
      replace (d =? LF) with false by (symmetry; apply Z.eqb_neq; exact Hd).
      rewrite IH by exact Hy'. reflexivity.
    - assert (Ha : a <> CR) by (intros ->; apply Hy; left; reflexivity).
      replace (a =? CR) with false by (symmetry; apply Z.eqb_neq; exact Ha). rewrite IH by exact Hy'. reflexivity. }
  rewrite E2, (replace_crlf_id y Hy), (replace_cr_no_cr_id y Hy). clear E2. unfold replace_cr, to_cr. rewrite map_map.
  rewrite <- (map_id y) at 2. apply map_ext_in. intros a Ha.
  destruct (a =? LF) eqn:E.
  - apply Z.eqb_eq in E. subst a. reflexivity.
  - assert (Hac : a <> CR) by (intros ->; exact (Hy Ha)).
    replace (a =? CR) with false by (symmetry; apply Z.eqb_neq; exact Hac). reflexivity.
Qed.

(** X10: the formatter only sees the output through its normalisation:
    formatting the normalised text again changes nothing, and an output with
    LF line ends gives the same block as the same output with CR LF or with
    CR line ends. *)
Theorem format_command_output_line_ends (command o : str) (success : bool) :
  format_command_output command (Some (normalized o)) success
    = format_command_output command (Some o) success
  /\ (~ In CR o ->
      format_command_output command (Some (to_crlf o)) success
        = format_command_output command (Some o) success
      /\ format_command_output command (Some (to_cr o)) success
        = format_command_output command (Some o) success).
Proof.
  split; [apply format_command_output_normalized, normalized_idem|].
  intros H. split; apply format_command_output_normalized;
    [apply normalized_to_crlf | apply normalized_to_cr]; exact H.
Qed.

Lemma format_command_output_line_ends_witness :
  format_command_output (s "dis ver") (Some (to_crlf (s "<R1>dis ver" ++ [LF] ++ s "VRP 5.170")))
    true
  = format_command_output (s "dis ver") (Some (s "<R1>dis ver" ++ [LF] ++ s "VRP 5.170")) true.
Proof.
  apply (proj1 (proj2 (format_command_output_line_ends (s "dis ver")
                         (s "<R1>dis ver" ++ [LF] ++ s "VRP 5.170") true) ltac:(vm_compute; intuition discriminate))).
Defined.

Lemma sub_crs_lf_filter (n : nat) (x : str) :
  filter (fun c => negb (c =? CR)) (sub_crs_lf n x) = filter (fun c => negb (c =? CR)) x.
Proof.
  revert n; induction x as [|a x IH]; intros n; cbn [sub_crs_lf].
  - induction n as [|n IHn]; [reflexivity | exact IHn].
  - destruct (a =? CR) eqn:E1.
    + rewrite IH. cbn [filter]. rewrite E1. reflexivity.
    + destruct (a =? LF) eqn:E2.
      * apply Z.eqb_eq in E2. subst a. cbn [filter]. rewrite E1, IH. reflexivity.
      * rewrite filter_app. replace (filter _ (repeat CR n)) with (@nil Z)
          by (induction n; [reflexivity | exact IHn]).
        cbn [app filter]. rewrite E1, IH. reflexivity.
Qed.

Lemma filter_filter_and (f g : Z -> bool) (x : str) :
  filter f (filter g x) = filter (fun c => g c && f c) x.
Proof.
  induction x as [|a x IH]; [reflexivity|]. cbn [filter].
  destruct (g a) eqn:Eg; cbn [andb filter]; [|exact IH].
  destruct (f a); rewrite IH; reflexivity.
Qed.

Lemma ssh_read_finish_eq (text : str) (truncated : bool) :
  ssh_read_finish text truncated
    = filter (fun c => negb (c =? CR) && negb (c =? NUL)) text
      ++ (if truncated then truncation_marker else []).
Proof.
  unfold ssh_read_finish. rewrite sub_crs_lf_filter. unfold remove_nul. rewrite filter_filter_and.
  rewrite (filter_ext _ (fun c => negb (c =? CR) && negb (c =? NUL)))
    by (intros c; apply andb_comm).
  destruct truncated; [reflexivity | symmetry; apply app_nil_r].
Qed.

(** X11: the SSH reader's clean-up keeps every character of the decoded
    output except NUL and CR, in order, and adds the truncation notice when
    it truncated; its [re.sub(r'\r+\n', ...)] step makes no difference once
    every CR is removed. *)
Theorem ssh_read_finish_filter (text : str) (truncated : bool) :
  ssh_read_finish text truncated
    = filter (fun c => negb (c =? CR) && negb (c =? NUL)) text
      ++ (if truncated then truncation_marker else []).
Proof. apply ssh_read_finish_eq. Qed.

Lemma splitlines_go_no_break (x cur : str) (b : bool) (l : str) (c : Z) :
  forallb (fun c => negb (is_line_break c)) cur = true ->
  In l (splitlines_go cur b x) -> In c l -> is_line_break c = false.
Proof.
  revert cur b; induction x as [|a x IH]; intros cur b Hcur; simpl.
  - destruct cur as [|z cur]; [simpl; tauto|]. intros [<-|[]] H2.
    rewrite <- in_rev in H2. rewrite forallb_forall in Hcur. apply negb_true_iff, Hcur, H2.
  - assert (Hl : forall l', In c (rev cur) -> l' = rev cur -> is_line_break c = false).
    { intros l' H _. rewrite <- in_rev in H. rewrite forallb_forall in Hcur. apply negb_true_iff, Hcur, H. }
    destruct (b && (a =? LF)); [apply IH, Hcur|].
    destruct (a =? CR) eqn:Ecr.
    { intros [<-|H1] H2; [exact (Hl _ H2 eq_refl)|]. exact (IH [] true eq_refl H1 H2). }
    destruct (is_line_break a) eqn:Eb.
    { intros [<-|H1] H2; [exact (Hl _ H2 eq_refl)|]. exact (IH [] false eq_refl H1 H2). }
    apply IH. simpl. rewrite Eb. exact Hcur.
Qed.

Lemma splitlines_go_plain (p w cur : str) :
  forallb (fun c => negb (is_line_break c)) p = true ->
  splitlines_go cur false (p ++ w) = splitlines_go (rev p ++ cur) false w.
Proof.
  revert cur; induction p as [|a p IH]; intros cur Hp; [reflexivity|].
  simpl in Hp. apply andb_true_iff in Hp as [Ha Hp]. apply negb_true_iff in Ha.
  assert (Hcr : (a =? CR) = false) by (destruct (a =? CR) eqn:E; [apply Z.eqb_eq in E; subst; discriminate | reflexivity]).
  cbn [app splitlines_go andb]. rewrite Hcr, Ha, IH by exact Hp. cbn [rev]. rewrite <- app_assoc. reflexivity.
Qed.

Lemma splitlines_go_lf (cur w : str) :
  splitlines_go cur false (LF :: w) = rev cur :: splitlines_go [] false w.
Proof. reflexivity. Qed.

Lemma splitlines_join (ls : list str) :
  Forall (fun l => l <> [] /\ forallb (fun c => negb (is_line_break c)) l = true) ls ->
  splitlines (join [LF] ls) = ls.
Proof.
  unfold splitlines. induction 1 as [|l ls [Hne Hl] Hls IH]; [reflexivity|].
  destruct ls as [|l' ls'].
  - cbn [join]. rewrite <- (app_nil_r l), splitlines_go_plain by exact Hl. rewrite !app_nil_r.
    cbn. destruct (rev l) as [|z r] eqn:E; [destruct l; [contradiction | simpl in E; destruct (rev l); discriminate]|].
    rewrite <- E, rev_involutive. reflexivity.
  - change (join [LF] (l :: l' :: ls')) with (l ++ [LF] ++ join [LF] (l' :: ls')).
    rewrite splitlines_go_plain by exact Hl. rewrite app_nil_r. cbn [app].
    rewrite splitlines_go_lf, rev_involutive, IH. reflexivity.
Qed.

(** X12: when the output it read has at least one non-blank line, the Telnet
    reader returns exactly its non-blank lines joined by LF, so splitting the
    result into lines gives back those lines and no blank one. *)
Theorem telnet_read_finish_no_blank (text : str) (truncated : bool) :
  let text' := if truncated then text ++ truncation_marker else text in
  let non_empty := filter (fun ln => negb (str_eqb (strip ln) [])) (splitlines text') in
  non_empty <> [] ->
  telnet_read_finish text truncated = join [LF] non_empty
  /\ splitlines (telnet_read_finish text truncated) = non_empty
  /\ (forall l, In l (splitlines (telnet_read_finish text truncated)) -> strip l <> []).
Proof.
  intros text' non_empty Hne.
  assert (E : telnet_read_finish text truncated = join [LF] non_empty).
  { unfold telnet_read_finish. fold text'. fold non_empty. destruct non_empty; [contradiction | reflexivity]. }
  assert (Hok : Forall (fun l => l <> [] /\ forallb (fun c => negb (is_line_break c)) l = true) non_empty).
  { apply Forall_forall. intros l Hl. subst non_empty. apply filter_In in Hl as [Hl Hb].
    split.
    - intros ->. discriminate.
    - apply forallb_forall. intros c Hc. apply negb_true_iff.
      exact (splitlines_go_no_break _ [] false _ _ eq_refl Hl Hc). }
  assert (E2 : splitlines (telnet_read_finish text truncated) = non_empty) by (rewrite E; apply splitlines_join, Hok).
  split; [exact E|]. split; [exact E2|].
  intros l Hl. rewrite E2 in Hl. subst non_empty. apply filter_In in Hl as [_ Hb].
  intros Hs. rewrite Hs in Hb. discriminate.
Qed.

Lemma telnet_read_finish_no_blank_witness :
  splitlines (telnet_read_finish (s "a" ++ [CR; LF; CR; LF] ++ s "b") false) = [s "a"; s "b"].
Proof.
  apply (proj1 (proj2 (telnet_read_finish_no_blank (s "a" ++ [CR; LF; CR; LF] ++ s "b") false
                        ltac:(vm_compute; discriminate)))).
Defined.

(** X13: for a decoded output with neither CR nor NUL and no blank line, read
    to the end by both readers (neither of them truncated it at the size
    cap), the SSH and the Telnet reader lead to the same formatted block. *)
Theorem readers_agree_without_blank_lines (command text : str) (success : bool) :
  ~ In CR text -> ~ In NUL text -> (forall l, In l (splitlines text) -> strip l <> []) ->
  format_command_output command (Some (ssh_read_finish text false)) success
    = format_command_output command (Some (telnet_read_finish text false)) success.
Proof.
  intros Hcr Hnul Hbl.
  assert (Hs : ssh_read_finish text false = text).
  { rewrite ssh_read_finish_eq, app_nil_r. apply forallb_filter_id, forallb_forall. intros c Hc.
    destruct (c =? CR) eqn:E1; [apply Z.eqb_eq in E1; subst; contradiction|].
    destruct (c =? NUL) eqn:E2; [apply Z.eqb_eq in E2; subst; contradiction|]. reflexivity. }
  rewrite Hs.
  assert (Hf : filter (fun ln => negb (str_eqb (strip ln) [])) (splitlines text) = splitlines text).
  { apply forallb_filter_id, forallb_forall. intros l Hl. apply negb_true_iff.
    destruct (str_eqb (strip l) []) eqn:E; [|reflexivity]. apply str_eqb_eq in E. exfalso; exact (Hbl l Hl E). }
  unfold telnet_read_finish. cbv beta iota. rewrite Hf.
  destruct (splitlines text) as [|l ls] eqn:Esp; [reflexivity|].
  apply format_command_output_lines.
  assert (Hok : Forall (fun l => l <> [] /\ forallb (fun c => negb (is_line_break c)) l = true) (l :: ls)).
  { apply Forall_forall. intros l' Hl'. split.
    - intros ->. apply (Hbl [] Hl'). reflexivity.
    - apply forallb_forall. intros c Hc. apply negb_true_iff. rewrite <- Esp in Hl'.
      exact (splitlines_go_no_break _ [] false _ _ eq_refl Hl' Hc). }
  assert (Hj : forall c, In c (join [LF] (l :: ls)) -> In c text \/ c = LF).
  { intros c Hc. destruct (join_chars _ _ _ Hc) as [[<-|[]]|[l' [Hl' Hc']]]; [right; reflexivity|].
    left. rewrite <- Esp in Hl'. exact (splitlines_chars _ _ _ Hl' Hc'). }
  assert (Hn : forall y, (forall c, In c y -> In c text \/ c = LF) -> normalized y = y).
  { intros y Hy. unfold normalized.
    assert (H1 : ~ In CR y) by (intros H; destruct (Hy _ H) as [H'|E]; [exact (Hcr H') | unfold CR, LF in E; discriminate]).
    assert (H2 : ~ In NUL y) by (intros H; destruct (Hy _ H) as [H'|E]; [exact (Hnul H') | unfold NUL, LF in E; discriminate]).
    rewrite remove_nul_id, replace_crlf_id, replace_cr_no_cr_id; auto. }
  rewrite (Hn text) by auto. rewrite (Hn _ Hj). rewrite Esp. symmetry. apply splitlines_join, Hok.
Qed.

Lemma readers_agree_without_blank_lines_witness :
  format_command_output (s "show clock") (Some (ssh_read_finish (s "show clock" ++ [LF] ++ s "10:00" ++ [LF]) false)) true
  = format_command_output (s "show clock") (Some (telnet_read_finish (s "show clock" ++ [LF] ++ s "10:00" ++ [LF]) false)) true.
Proof.
  apply readers_agree_without_blank_lines.
  - vm_compute. intuition discriminate.
  - vm_compute. intuition discriminate.
  - intros l Hl. vm_compute in Hl. destruct Hl as [<-|[<-|[]]]; vm_compute; discriminate.
Defined.

Lemma parse_command_file_lines_witness :
  In (s "show run") (parse_command_file (Some (s "# backup" ++ [LF] ++ s " show run " ++ [CR; LF; LF])))
  /\ command_line_ok (s "show run").
Proof.
  split; [vm_compute; tauto|].
  apply (proj2 (parse_command_file_lines (Some (s "# backup" ++ [LF] ++ s " show run " ++ [CR; LF; LF])))).
  vm_compute. tauto.
Defined.

(** ** BufferManager over a run *)

Section BufferRun.
Import Buffer.
Variable encoded_len : str -> N.

(** The byte size of the buffered blocks. *)
Definition buffered_size (b : BufferManager) : N :=
  fold_right (fun d n => (encoded_len d + n)%N) 0%N (output_buffer b).

Definition same_target (b b' : BufferManager) : Prop :=
  output_dir b' = output_dir b /\ mode b' = mode b /\ ip b' = ip b.

Definition size_inv (b : BufferManager) : Prop :=
  buffer_size b = buffered_size b /\ (buffer_size b <= total_bytes b)%N.

Lemma flush_buffer_cases (b : BufferManager) ts ok fs :
  let '(b', fs', r) := flush_buffer b ts ok fs in
  (b' = b /\ (fs' = fs \/ exists w, ok = IoFail (Some w)
                 /\ fs' = fs_write fs (session_path b ts)
                          (match fs (session_path b ts) with Some c => c | None => [] end ++ w)))
  \/ (output_buffer b <> [] /\ ok = IoOk /\ output_buffer b' = [] /\ buffer_size b' = 0%N
      /\ total_bytes b' = total_bytes b /\ same_target b b'
      /\ last_filepath b' = session_path b ts
      /\ fs' = fs_write fs (session_path b ts)
                 (match fs (session_path b ts) with Some c => c | None => [] end
                  ++ concat (output_buffer b))).
Proof.
  unfold flush_buffer. destruct (output_buffer b) as [|d ds] eqn:E; [left; auto|].
  destruct ok as [|[w|]]; [right | left; split; [reflexivity | right; exists w; auto] | left; auto].
  rewrite <- E. repeat split; try reflexivity. rewrite E. discriminate.
Qed.

Lemma flush_size_inv (b : BufferManager) ts ok fs :
  size_inv b -> size_inv (fst (fst (flush_buffer b ts ok fs)))
  /\ same_target b (fst (fst (flush_buffer b ts ok fs)))
  /\ total_bytes (fst (fst (flush_buffer b ts ok fs))) = total_bytes b.
Proof.
  intros H. assert (C := flush_buffer_cases b ts ok fs).
  destruct (flush_buffer b ts ok fs) as [[b' fs'] r]. cbn [fst].
  destruct C as [[-> _]|[_ [_ [Hbuf [Hs [Ht [Htg _]]]]]]].
  - split; [exact H|]. split; [repeat split | reflexivity].
  - split; [|split; [exact Htg | exact Ht]].
    unfold size_inv, buffered_size. rewrite Hbuf, Hs. cbn. split; [reflexivity | lia].
Qed.

(** The manager [add_data] builds after its optional flush. *)
Definition appended (b1 : BufferManager) (data : str) : BufferManager :=
  {| output_dir := output_dir b1; mode := mode b1; ip := ip b1;
     output_buffer := output_buffer b1 ++ [data];
     buffer_size := buffer_size b1 + encoded_len data;
     total_bytes := total_bytes b1 + encoded_len data;
     last_filepath := last_filepath b1 |}.

Lemma add_data_appended (b : BufferManager) data ts ok fs :
  add_data encoded_len b data ts ok fs =
  if (max_output_size <? total_bytes b + encoded_len data)%N then (b, fs, false)
  else
    let '(b1, fs1, _) :=
      if (max_buffer_size <? buffer_size b + encoded_len data)%N
      then flush_buffer b ts ok fs else (b, fs, false) in
    (appended b1 data, fs1, true).
Proof. reflexivity. Qed.

Lemma appended_size_inv (b1 : BufferManager) (data : str) :
  size_inv b1 -> size_inv (appended b1 data) /\ same_target b1 (appended b1 data).
Proof.
  intros [I1 I2]. split; [|repeat split].
  assert (Hs : forall l a, fold_right (fun d n => (encoded_len d + n)%N) a l
                           = (fold_right (fun d n => (encoded_len d + n)%N) 0%N l + a)%N).
  { induction l as [|x l IH]; intros a; cbn; [lia|]. rewrite IH. lia. }
  unfold size_inv, buffered_size in *. cbn. rewrite fold_right_app, Hs. cbn. rewrite I1. split; lia.
Qed.

Lemma step_size_inv (st : BufferManager * FS) (o : op) :
  size_inv (fst st) -> size_inv (fst (step encoded_len st o)) /\ same_target (fst st) (fst (step encoded_len st o)).
Proof.
  destruct st as [b fs]. cbn [fst]. intros H. destruct o as [d ts ok|ts ok|t1 ok el t2 c]; cbn [step].
  - rewrite add_data_appended.
    destruct (max_output_size <? total_bytes b + encoded_len d)%N; [split; [exact H | repeat split]|].
    destruct (max_buffer_size <? buffer_size b + encoded_len d)%N.
    + assert (Hf := flush_size_inv b ts ok fs H).
      destruct (flush_buffer b ts ok fs) as [[b1 fs1] r]. cbn [fst] in *.
      destruct Hf as [I [[T1 [T2 T3]] _]]. destruct (appended_size_inv b1 d I) as [I' [U1 [U2 U3]]].
      split; [exact I'|]. unfold same_target. rewrite U1, U2, U3. auto.
    + exact (appended_size_inv b d H).
  - assert (Hf := flush_size_inv b ts ok fs H).
    destruct (flush_buffer b ts ok fs) as [[b' fs'] r]. cbn [fst] in *. tauto.
  - unfold finalize. assert (Hf := flush_size_inv b t1 ok fs H).
    destruct (flush_buffer b t1 ok fs) as [[b1 fs1] r]. cbn [fst] in Hf.
    destruct (fs1 (get_last_filepath b1 t2)); [|destruct c]; cbn [fst]; tauto.
Qed.

(** X14: every manager a sequence of calls can reach from a fresh one keeps
    [_buffer_size] equal to the byte size of the buffered blocks and never
    above [total_bytes], and keeps its directory, mode and host. *)
Theorem buffer_size_invariant (dir md host : str) (fs0 : FS) (ops : list op) :
  let b := fst (run_ops encoded_len (init dir md host, fs0) ops) in
  buffer_size b = buffered_size b /\ (buffer_size b <= total_bytes b)%N
  /\ output_dir b = dir /\ mode b = md /\ ip b = host.
Proof.
  cbv zeta. unfold run_ops.
  assert (G : forall ops st, size_inv (fst st) -> output_dir (fst st) = dir -> mode (fst st) = md ->
            ip (fst st) = host ->
            let b := fst (fold_left (step encoded_len) ops st) in
            size_inv b /\ output_dir b = dir /\ mode b = md /\ ip b = host).
  { induction ops0 as [|o ops0 IH]; intros st H1 H2 H3 H4; cbn [fold_left]; [auto|].
    destruct (step_size_inv st o H1) as [I [T1 [T2 T3]]].
    apply IH; [exact I | congruence | congruence | congruence]. }
  destruct (G ops (init dir md host, fs0)) as [[I1 I2] R]; [split; cbn; lia | reflexivity..|].
  split; [exact I1|]. split; [exact I2 | exact R].
Qed.

(** How the file write a call may make ends. *)
Definition op_io_outcome (o : op) : io_outcome :=
  match o with OpAdd _ _ ok => ok | OpFlush _ ok => ok | OpFinalize _ ok _ _ _ => ok end.

(** Whether the file write a call may make succeeds. *)
Definition op_io (o : op) : bool :=
  match op_io_outcome o with IoOk => true | IoFail _ => false end.

Lemma flush_io_ok (b : BufferManager) ts fs :
  output_buffer (fst (fst (flush_buffer b ts IoOk fs))) = [].
Proof. unfold flush_buffer. destruct (output_buffer b) eqn:E; [exact E | reflexivity]. Qed.

Lemma step_memory (st : BufferManager * FS) (o : op) :
  op_io o = true ->
  ((buffer_size (fst st) <= max_buffer_size)%N \/ (length (output_buffer (fst st)) <= 1)%nat) ->
  (buffer_size (fst (step encoded_len st o)) <= max_buffer_size)%N
  \/ (length (output_buffer (fst (step encoded_len st o))) <= 1)%nat.
Proof.
  destruct st as [b fs]. cbn [fst]. intros Hio H.
  destruct o as [d ts ok|ts ok|t1 ok el t2 c]; cbn [step op_io op_io_outcome] in *;
    (destruct ok; [|discriminate]).
  - rewrite add_data_appended.
    destruct (max_output_size <? total_bytes b + encoded_len d)%N; [exact H|].
    destruct (max_buffer_size <? buffer_size b + encoded_len d)%N eqn:E.
    + assert (Hf := flush_io_ok b ts fs).
      destruct (flush_buffer b ts IoOk fs) as [[b1 fs1] r]. cbn [fst] in *.
      right. cbn. rewrite Hf. reflexivity.
    + left. cbn. apply N.ltb_ge in E. exact E.
  - assert (Hf := flush_io_ok b ts fs).
    destruct (flush_buffer b ts IoOk fs) as [[b' fs'] r]. cbn [fst] in *.
    right. rewrite Hf. cbn; lia.
  - unfold finalize. assert (Hf := flush_io_ok b t1 fs).
    destruct (flush_buffer b t1 IoOk fs) as [[b1 fs1] r]. cbn [fst] in Hf.
    destruct (fs1 (get_last_filepath b1 t2)); [|destruct c]; cbn [fst];
      right; rewrite Hf; cbn; lia.
Qed.

(** X15: when every file write succeeds, a manager reached from a fresh one
    by any sequence of calls holds at most 5MB in its buffer, or a single
    block (one bigger than 5MB is buffered whole after the flush it
    triggers). *)
Theorem buffer_memory_bound (dir md host : str) (fs0 : FS) (ops : list op) :
  Forall (fun o => op_io o = true) ops ->
  let b := fst (run_ops encoded_len (init dir md host, fs0) ops) in
  (buffer_size b <= max_buffer_size)%N \/ (length (output_buffer b) <= 1)%nat.
Proof.
  intros Hall. cbv zeta. unfold run_ops.
  assert (G : forall st, (buffer_size (fst st) <= max_buffer_size)%N \/ (length (output_buffer (fst st)) <= 1)%nat ->
            (buffer_size (fst (fold_left (step encoded_len) ops st)) <= max_buffer_size)%N
            \/ (length (output_buffer (fst (fold_left (step encoded_len) ops st))) <= 1)%nat).
  { induction Hall as [|o ops Ho Hall IH]; intros st H; cbn [fold_left]; [exact H|].
    apply IH, step_memory; assumption. }
  apply G. right. cbn. lia.
Qed.

End BufferRun.

Lemma buffer_memory_bound_witness :
  Forall (fun o => op_io o = true) [Buffer.OpAdd (s "ab") (s "20260101-120000") Buffer.IoOk; Buffer.OpFlush (s "20260101-120000") Buffer.IoOk]
  /\ let b := fst (Buffer.run_ops utf8_len (Buffer.init (s "out") (s "ssh") (s "10.0.0.1"), fun _ => None)
                   [Buffer.OpAdd (s "ab") (s "20260101-120000") Buffer.IoOk; Buffer.OpFlush (s "20260101-120000") Buffer.IoOk]) in
     (Buffer.buffer_size b <= Buffer.max_buffer_size)%N \/ (length (Buffer.output_buffer b) <= 1)%nat.
Proof.
  split; [repeat constructor|].
  apply (buffer_memory_bound utf8_len). repeat constructor.
Defined.


Section BufferContent.
Import Buffer.
Variable encoded_len : str -> N.

Definition file_or_empty (fs : FS) (p : str) : str :=
  match fs p with Some c => c | None => [] end.

(** What the session file of clock reading [t] and the buffer hold together. *)
Definition stored (st : BufferManager * FS) (t : str) : str :=
  file_or_empty (snd st) (session_path (fst st) t) ++ concat (output_buffer (fst st)).

(** The blocks [add_data] accepted, in order. *)
Fixpoint accepted_blocks (st : BufferManager * FS) (ops : list op) : list str :=
  match ops with
  | [] => []
  | OpAdd d ts ok :: ops' =>
      let '(b', fs', acc) := add_data encoded_len (fst st) d ts ok (snd st) in
      (if acc then [d] else []) ++ accepted_blocks (b', fs') ops'
  | o :: ops' => accepted_blocks (step encoded_len st o) ops'
  end.

(** The clock reading a call's flush sees. *)
Definition op_ts (o : op) : str :=
  match o with OpAdd _ ts _ => ts | OpFlush ts _ => ts | OpFinalize ts _ _ _ _ => ts end.

Lemma session_path_target (b b' : BufferManager) (t : str) :
  same_target b b' -> session_path b' t = session_path b t.
Proof. intros [H1 [H2 H3]]. unfold session_path. rewrite H1, H2, H3. reflexivity. Qed.

(** Whether a failed write fails before the file is opened. *)
Definition io_whole (io : io_outcome) : bool :=
  match io with IoFail (Some _) => false | _ => true end.

Lemma flush_stored (b : BufferManager) t ok fs :
  io_whole ok = true ->
  let '(b', fs', _) := flush_buffer b t ok fs in
  stored (b', fs') t = stored (b, fs) t /\ same_target b b'.
Proof.
  intros Hw. assert (C := flush_buffer_cases b t ok fs).
  destruct (flush_buffer b t ok fs) as [[b' fs'] r].
  destruct C as [[-> [->|[w [-> _]]]]|[_ [_ [Hbuf [_ [_ [Htg [_ ->]]]]]]]];
    [split; [reflexivity | repeat split] | discriminate Hw |].
  split; [|exact Htg]. unfold stored, file_or_empty. cbn [fst snd].
  rewrite (session_path_target _ _ _ Htg), Hbuf. unfold fs_write. rewrite str_eqb_refl.
  cbn [concat]. apply app_nil_r.
Qed.

Lemma step_stored (st : BufferManager * FS) (o : op) (t : str) :
  op_ts o = t -> io_whole (op_io_outcome o) = true ->
  stored (step encoded_len st o) t
    = stored st t ++ concat (match o with
                             | OpAdd d ts ok => if snd (add_data encoded_len (fst st) d ts ok (snd st)) then [d] else []
                             | _ => []
                             end)
  /\ same_target (fst st) (fst (step encoded_len st o)).
Proof.
  destruct st as [b fs]. intros Ht Hw.
  destruct o as [d ts ok|ts ok|t1 ok el t2 c]; cbn [op_ts op_io_outcome step fst snd] in *; subst.
  - rewrite add_data_appended.
    destruct (max_output_size <? total_bytes b + encoded_len d)%N; cbn [snd concat].
    { rewrite app_nil_r. split; [reflexivity | repeat split]. }
    assert (Hb : forall b1 fs1, stored (b1, fs1) t = stored (b, fs) t -> same_target b b1 ->
               stored (appended encoded_len b1 d, fs1) t = stored (b, fs) t ++ concat [d]
               /\ same_target b (appended encoded_len b1 d)).
    { intros b1 fs1 H1 [T1 [T2 T3]]. unfold stored in *. cbn [fst snd] in *.
      assert (Hp : session_path (appended encoded_len b1 d) t = session_path b1 t)
        by (apply session_path_target; repeat split).
      rewrite Hp, <- H1. cbn [output_buffer appended]. rewrite concat_app, app_assoc.
      split; [reflexivity|]. unfold same_target; cbn. auto. }
    destruct (max_buffer_size <? buffer_size b + encoded_len d)%N.
    + assert (F := flush_stored b t ok fs Hw). destruct (flush_buffer b t ok fs) as [[b1 fs1] r].
      destruct F as [F1 F2]. cbn [snd]. apply Hb; assumption.
    + cbn [snd]. apply Hb; [reflexivity | repeat split].
  - assert (F := flush_stored b t ok fs Hw). destruct (flush_buffer b t ok fs) as [[b' fs'] r].
    destruct F as [F1 F2]. cbn [concat]. rewrite app_nil_r. split; assumption.
  - unfold finalize. assert (F := flush_stored b t ok fs Hw).
    destruct (flush_buffer b t ok fs) as [[b1 fs1] r]. destruct F as [F1 F2].
    cbn [concat]. rewrite app_nil_r.
    destruct (fs1 (get_last_filepath b1 t2)) eqn:E; [|destruct c]; cbn [fst]; try (split; assumption).
    split; [|exact F2]. rewrite <- F1. unfold stored, file_or_empty, fs_write. cbn [fst snd].
    destruct (str_eqb (session_path b1 t) (get_last_filepath b1 t2)) eqn:Eq; [|reflexivity].
    apply str_eqb_eq in Eq. rewrite Eq, E. reflexivity.
Qed.

(** X16: no data is lost or duplicated: when every flush of a sequence of
    calls sees the same clock reading [t] and every failed file write fails
    before the file is opened (none leaves a partly written file), the
    session file of [t] followed by the buffer holds at the end what it
    held at the start, then exactly the blocks [add_data] accepted, in
    order, whether the flushes succeeded or not. *)
Theorem buffer_content_conserved (st : BufferManager * FS) (ops : list op) (t : str) :
  Forall (fun o => op_ts o = t /\ io_whole (op_io_outcome o) = true) ops ->
  stored (run_ops encoded_len st ops) t = stored st t ++ concat (accepted_blocks st ops).
Proof.
  unfold run_ops. intros Hall. revert st; induction Hall as [|o ops [Ho Hw] Hall IH]; intros st.
  - cbn. symmetry. apply app_nil_r.
  - cbn [fold_left]. rewrite IH. destruct (step_stored st o t Ho Hw) as [E _]. rewrite E.
    rewrite <- app_assoc, <- concat_app. f_equal. f_equal.
    destruct o as [d ts ok|ts ok|t1 ok el t2 c]; cbn [accepted_blocks]; [|reflexivity..].
    destruct st as [b fs]. cbn [step fst snd].
    destruct (add_data encoded_len b d ts ok fs) as [[b' fs'] acc]. reflexivity.
Qed.

End BufferContent.

Lemma buffer_content_conserved_witness :
  Forall (fun o => op_ts o = s "20260101-120000" /\ io_whole (op_io_outcome o) = true)
    [Buffer.OpAdd (s "ab") (s "20260101-120000") Buffer.IoOk; Buffer.OpAdd (s "c") (s "20260101-120000") (Buffer.IoFail None);
     Buffer.OpFlush (s "20260101-120000") (Buffer.IoFail None); Buffer.OpFlush (s "20260101-120000") Buffer.IoOk]
  /\ stored (Buffer.run_ops utf8_len (Buffer.init (s "out") (s "ssh") (s "10.0.0.1"), fun _ => None)
        [Buffer.OpAdd (s "ab") (s "20260101-120000") Buffer.IoOk; Buffer.OpAdd (s "c") (s "20260101-120000") (Buffer.IoFail None);
         Buffer.OpFlush (s "20260101-120000") (Buffer.IoFail None); Buffer.OpFlush (s "20260101-120000") Buffer.IoOk])
        (s "20260101-120000")
     = stored (Buffer.init (s "out") (s "ssh") (s "10.0.0.1"), fun _ => None) (s "20260101-120000")
       ++ concat (accepted_blocks utf8_len (Buffer.init (s "out") (s "ssh") (s "10.0.0.1"), fun _ => None)
            [Buffer.OpAdd (s "ab") (s "20260101-120000") Buffer.IoOk; Buffer.OpAdd (s "c") (s "20260101-120000") (Buffer.IoFail None);
             Buffer.OpFlush (s "20260101-120000") (Buffer.IoFail None); Buffer.OpFlush (s "20260101-120000") Buffer.IoOk]).
Proof.
  split; [repeat constructor; split; reflexivity|].
  apply (buffer_content_conserved utf8_len). repeat constructor; split; reflexivity.
Defined.

(** ** The worker's signals *)






(** ** [_sanitize_command] *)

Lemma drop_prompt_prefix_id (y : str) :
  (forall c, In c y -> negb ((48 <=? c) && (c <=? 92) || (c =? 117) || (c =? 120)) = true) ->
  drop_prompt_prefix y = y.
Proof.
  destruct y as [|c y]; intros H; [reflexivity|].
  specialize (H c (or_introl eq_refl)). unfold drop_prompt_prefix.
  repeat (match goal with |- context [match ?x with _ => _ end] => destruct x end);
    first [reflexivity | vm_compute in H; discriminate H].
Qed.

Lemma sub_backslash_s_go_id (y : str) :
  ~ In 92 y -> sub_backslash_s_go false y = y.
Proof.
  induction y as [|c y IH]; intros H; [reflexivity|]. cbn [sub_backslash_s_go andb].
  destruct (Z.eqb_spec c 92) as [->|Hc]; [exfalso; apply H; left; reflexivity|].
  cbn [andb]. rewrite IH; [reflexivity|]. intros Hy; apply H; right; exact Hy.
Qed.

(** X18: [_sanitize_command] deletes every character from [0] to the
    backslash (all ASCII digits and upper-case letters, and
    [:;<=>?@[\\]), the letters [u] and [x], and the six-character text
    [\\ufeff]: its character classes are written with doubled backslashes
    in raw strings, so they list these characters instead of the zero-width
    and control characters.  Its prompt-prefix and whitespace
    substitutions then never apply (their patterns need a [<] or a
    backslash), so the result is the filtered text with only [strip]
    applied, and runs of whitespace, tabs and control characters stay. *)
Theorem sanitize_command_chars (x : str) :
  sanitize_command (Some x)
    = strip (filter (fun c => negb ((48 <=? c) && (c <=? 92) || (c =? 117) || (c =? 120)))
                    (replace_empty bom_literal x))
  /\ (forall c, In c (sanitize_command (Some x)) -> ~ (48 <= c <= 92) /\ c <> 117 /\ c <> 120).
Proof.
  set (keep := fun c => negb ((48 <=? c) && (c <=? 92) || (c =? 117) || (c =? 120))).
  assert (E : sanitize_command (Some x) = strip (filter keep (replace_empty bom_literal x))).
  { cbn [sanitize_command]. rewrite filter_filter_and.
    rewrite (filter_ext _ keep).
    2: { intros c. unfold keep, in_zero_width, in_control, in_list. cbn [existsb].
         zleb_cases; repeat match goal with |- context [?a =? ?b] => destruct (Z.eqb_spec a b) end;
         cbn; try reflexivity; lia. }
    assert (K : forall c, In c (filter keep (replace_empty bom_literal x)) -> keep c = true)
      by (intros c Hc; apply filter_In in Hc; tauto).
    rewrite (drop_prompt_prefix_id _ K). unfold sub_backslash_s.
    rewrite sub_backslash_s_go_id; [reflexivity|].
    intros H92. apply K in H92. vm_compute in H92. discriminate. }
  split; [exact E|]. intros c Hc. rewrite E in Hc. apply strip_chars, filter_In in Hc as [_ Hc].
  unfold keep in Hc. apply negb_true_iff in Hc. repeat rewrite orb_false_iff in Hc.
  destruct Hc as [[H1 H2] H3]. apply Z.eqb_neq in H2, H3.
  rewrite andb_false_iff, Z.leb_gt, Z.leb_gt in H1. repeat split; auto; lia.
Qed.
